(** * kots: base and midstream writers

    A shallow embedding of [WriteBase] of package [base] and of
    [pkg/midstream/write.go] ([WriteMidstream], [mergeKustomization],
    [writeKustomization], [writePullSecret], [writeObjectsWithPullSecret]),
    and of the slice and string helpers of package [util].

    Go values are modelled as follows: slices as lists, [string] as
    [string], [[]byte] as [list byte], a nil-able pointer as [option],
    an [error] result as a value of the tree-shaped type [error].  The file
    system, the YAML codecs and the path library are not part of the
    repository; they are the fields of the class [Env], and every theorem
    below holds for all of them.  Calls are threaded through an explicit
    state (the world and the trace of calls made so far). *)

From Stdlib Require Import NArith.
From stdpp Require Import base option list strings gmap.

Set Default Proof Using "Type".

(** ** Data model *)

Definition bytes := list Byte.byte.

(** [kustomizetypes.Image] *)
Record Image := mkImage {
  Name : string;
  NewName : string;
  NewTag : string;
  Digest : string;
}.

#[global] Instance Image_eq_dec : EqDecision Image.
Proof. solve_decision. Defined.

(** [kustomizetypes.PatchStrategicMerge] is a named string type. *)
Definition PatchStrategicMerge := string.

(** [kustomizetypes.Kustomization], the fields this code reads or writes. *)
Record Kustomization := mkKustomization {
  APIVersion : string;
  Kind : string;
  Resources : list string;
  PatchesStrategicMerge : list PatchStrategicMerge;
  Images : list Image;
  Bases : list string;
}.

#[global] Instance Kustomization_eq_dec : EqDecision Kustomization.
Proof. solve_decision. Defined.

Definition set_Resources (k : Kustomization) (v : list string) : Kustomization :=
  mkKustomization (APIVersion k) (Kind k) v (PatchesStrategicMerge k) (Images k) (Bases k).
Definition set_PatchesStrategicMerge (k : Kustomization) (v : list PatchStrategicMerge)
  : Kustomization :=
  mkKustomization (APIVersion k) (Kind k) (Resources k) v (Images k) (Bases k).
Definition set_Images (k : Kustomization) (v : list Image) : Kustomization :=
  mkKustomization (APIVersion k) (Kind k) (Resources k) (PatchesStrategicMerge k) v (Bases k).
Definition set_Bases (k : Kustomization) (v : list string) : Kustomization :=
  mkKustomization (APIVersion k) (Kind k) (Resources k) (PatchesStrategicMerge k) (Images k) v.

(** ** The merge helpers

    [removeExistingImages], [findNewPatches] and [findNewStrings] belong to
    package [midstream] but their file is not among the sources.  The merge
    is therefore written over an interface holding the three functions, so
    that whatever is proved for every [MergeHelpers] holds for the real
    ones. *)

Class MergeHelpers := {
  removeExistingImages : list Image → list Image → list Image;
  findNewPatches :
    list PatchStrategicMerge → list PatchStrategicMerge → list PatchStrategicMerge;
  findNewStrings : list string → list string → list string;
}.

(** Modelled from the spec: [findNewStrings] is absent from the sources.
    The spec has "append to the existing list only new entries not already
    present (string equality on path)": the helper returns the entries of
    the new list that do not occur in the existing list, in order. *)
Definition findNewStrings_spec (newList existingList : list string) : list string :=
  filter (λ s, s ∉ existingList) newList.

(** Modelled from the spec: [findNewPatches] is absent from the sources.
    The spec has "append to the existing list only new entries not already
    present (string equality on the patch reference)". *)
Definition findNewPatches_spec (newList existingList : list PatchStrategicMerge)
  : list PatchStrategicMerge :=
  filter (λ p, p ∉ existingList) newList.

(** Modelled from the spec: [removeExistingImages] is absent from the
    sources.  The spec has "only those entries from the new computation
    whose name does not already appear in the existing list".  It completes
    [spec_helpers]; what is proved below about the image list holds for
    every helper and does not rest on this one. *)
Definition removeExistingImages_spec (newImages existingImages : list Image) : list Image :=
  filter (λ i, Name i ∉ (Name <$> existingImages)) newImages.

Definition spec_helpers : MergeHelpers := {|
  removeExistingImages := removeExistingImages_spec;
  findNewPatches := findNewPatches_spec;
  findNewStrings := findNewStrings_spec;
|}.

(** ** [mergeKustomization]

    The receiver's [Kustomization] is passed in and the updated one
    returned; [existing] is the nil-able pointer. *)
Definition mergeKustomization `{MergeHelpers}
    (k : Kustomization) (existing : option Kustomization) : Kustomization :=
  match existing with
  | None => k
  | Some existing =>
      let filteredImages := removeExistingImages (Images k) (Images existing) in
      let k := set_Images k (Images k ++ filteredImages) in
      let newPatches :=
        findNewPatches (PatchesStrategicMerge k) (PatchesStrategicMerge existing) in
      let k := set_PatchesStrategicMerge k (PatchesStrategicMerge existing ++ newPatches) in
      let newResources := findNewStrings (Resources k) (Resources existing) in
      set_Resources k (Resources existing ++ newResources)
  end.

(** ** Documents, files and receivers *)

(** [k8sdoc.Doc], the fields [obejctWithPullSecret] reads or builds, each
    under the name of its Go path ([DocMetadata], [MetadataName], ...).
    An [ImagePullSecret] is a Go [map[string]string]. *)
Definition ImagePullSecret := gmap string string.

Record PodSpec := mkPodSpec { ImagePullSecrets : list ImagePullSecret }.
Record Template := mkTemplate { TemplateSpec : PodSpec }.
Record Spec := mkSpec { SpecTemplate : Template }.
Record Metadata := mkMetadata { MetadataName : string }.
Record Doc := mkDoc {
  DocAPIVersion : string;
  DocKind : string;
  DocMetadata : Metadata;
  DocSpec : Spec;
}.

(** [base.BaseFile] and [base.Base] *)
Record BaseFile := mkBaseFile { Path : string; Content : bytes }.
Record Base := mkBase { Files : list BaseFile }.

Module BaseOpts.
(** [base.WriteOptions] *)
Record WriteOptions := mk {
  BaseDir : string;
  Overwrite : bool;
  ExcludeKotsKinds : bool;
}.
End BaseOpts.

Module MidOpts.
(** [midstream.WriteOptions] *)
Record WriteOptions := mk {
  MidstreamDir : string;
  BaseDir : string;
}.
End MidOpts.

(** ** Errors *)

(** Errors produced outside the repository (system calls, codecs). *)
Inductive syserr :=
  | ENOENT | EACCES | EEXIST | ENOTDIR | EIO
  | ECodec (msg : string).

#[global] Instance syserr_eq_dec : EqDecision syserr.
Proof. solve_decision. Defined.

(** Go's [error] values as this code builds them: an outside error, a
    [fmt.Errorf] message, or [errors.Wrap cause msg]. *)
Inductive error :=
  | Sys (e : syserr)
  | Errorf (msg : string)
  | Wrap (cause : error) (msg : string).

#[global] Instance error_eq_dec : EqDecision error.
Proof. solve_decision. Defined.

(** [os.IsNotExist err] on the error of a system call; [None] is nil. *)
Definition os_IsNotExist (err : option syserr) : bool :=
  match err with
  | Some ENOENT => true
  | _ => false
  end.

(** The error of [WriteBase] for an existing directory:
    [fmt.Errorf("directory %s already exists", renderDir)]. *)
Definition already_exists (renderDir : string) : error :=
  Errorf ("directory " +:+ renderDir +:+ " already exists").

(** ** The environment

    Everything the two writers call that is not in the sources: the [os],
    [ioutil], [path], [filepath] and YAML libraries, package [k8sutil], and
    the two inclusion predicates of [BaseFile].  A system call takes the
    world and returns its error ([None] is nil) and the new world;
    [os.Stat] only reads. A file handle is named by the path it was
    created at. *)
Class Env := {
  World : Type;
  Secret : Type;
  path_Join : list string → string;
  path_Split : string → string * string;
  filepath_Join : list string → string;
  filepath_Rel : string → string → syserr + string;
  k8syaml_Marshal : Secret → syserr + bytes;
  yaml_Marshal : Doc → syserr + bytes;
  ShouldBeIncludedInBaseFilesystem : BaseFile → bool → bool;
  ShouldBeIncludedInBaseKustomization : BaseFile → bool → bool;
  ReadKustomizationFromFile : string → World → syserr + Kustomization;
  WriteKustomizationToFile : Kustomization → string → World → option syserr * World;
  os_Stat : string → World → option syserr;
  os_RemoveAll : string → World → option syserr * World;
  os_MkdirAll : string → N → World → option syserr * World;
  ioutil_WriteFile : string → bytes → N → World → option syserr * World;
  os_Create : string → World → option syserr * World;
  File_Write : string → bytes → World → option syserr * World;
  File_Close : string → World → World;
}.

(** [midstream.Midstream]; its field [Kustomization] is [MKustomization]
    here, and the pointer is taken to be set. *)
Record Midstream `{Env} := mkMidstream {
  MKustomization : Kustomization;
  PullSecret : option Secret;
  DocForPatches : list Doc;
}.

(** One entry per call made to the environment, in order. *)
Inductive Event :=
  | EvStat (p : string)
  | EvRemoveAll (p : string)
  | EvMkdirAll (p : string) (perm : N)
  | EvWriteFile (p : string) (b : bytes) (perm : N)
  | EvCreate (p : string)
  | EvFileWrite (p : string) (b : bytes)
  | EvFileClose (p : string)
  | EvReadKustomization (p : string)
  | EvWriteKustomization (k : Kustomization) (p : string).

(** ** State and early return *)

Section Writers.
Context `{Env} `{MergeHelpers}.

Record State := mkState { world : World; trace : list Event }.

(** A computation either returns early with an error ([inl]) or goes on
    with a value ([inr]). *)
Definition M (A : Type) : Type := State → (error + A) * State.

Definition ret {A} (a : A) : M A := λ s, (inr a, s).
Definition fail {A} (e : error) : M A := λ s, (inl e, s).
Definition bind {A B} (c : M A) (f : A → M B) : M B :=
  λ s, match c s with
       | (inr a, s') => f a s'
       | (inl e, s') => (inl e, s')
       end.

Notation "'let*' x ':=' c 'in' k" := (bind c (λ x, k))
  (at level 10, x name, c at level 100, k at level 200).

(** A call that only reads the world. *)
Definition observe {A} (ev : Event) (f : World → A) : M A :=
  λ s, (inr (f (world s)), mkState (world s) (trace s ++ [ev])).

(** A call that may change the world. *)
Definition perform {A} (ev : Event) (f : World → A * World) : M A :=
  λ s, let '(a, w) := f (world s) in (inr a, mkState w (trace s ++ [ev])).

(** [if err != nil { return errors.Wrap(err, msg) }] *)
Definition check (err : option syserr) (msg : string) : M unit :=
  match err with
  | None => ret tt
  | Some e => fail (Wrap (Sys e) msg)
  end.

Definition do_Stat (p : string) : M (option syserr) :=
  observe (EvStat p) (os_Stat p).
Definition do_RemoveAll (p : string) : M (option syserr) :=
  perform (EvRemoveAll p) (os_RemoveAll p).
Definition do_MkdirAll (p : string) (perm : N) : M (option syserr) :=
  perform (EvMkdirAll p perm) (os_MkdirAll p perm).
Definition do_WriteFile (p : string) (b : bytes) (perm : N) : M (option syserr) :=
  perform (EvWriteFile p b perm) (ioutil_WriteFile p b perm).
Definition do_Create (p : string) : M (option syserr) :=
  perform (EvCreate p) (os_Create p).
Definition do_FileWrite (p : string) (b : bytes) : M (option syserr) :=
  perform (EvFileWrite p b) (File_Write p b).
Definition do_FileClose (p : string) : M unit :=
  perform (EvFileClose p) (λ w, (tt, File_Close p w)).
Definition do_ReadKustomization (p : string) : M (syserr + Kustomization) :=
  observe (EvReadKustomization p) (ReadKustomizationFromFile p).
Definition do_WriteKustomization (k : Kustomization) (p : string) : M (option syserr) :=
  perform (EvWriteKustomization k p) (WriteKustomizationToFile k p).

(** The caller's [if err != nil { return errors.Wrap(err, msg) }] around a
    call to a function of this package. *)
Definition wrapping {A} (c : M A) (msg : string) : M A :=
  λ s, match c s with
       | (inl e, s') => (inl (Wrap e msg), s')
       | (inr a, s') => (inr a, s')
       end.

(** [defer d]: [d] runs when the body returns, whatever it returns. *)
Definition deferring {A} (d : M unit) (body : M A) : M A :=
  λ s, let '(r, s') := body s in (r, snd (d s')).

(** ** [WriteBase] *)

(** File modes [0744] and [0644]. *)
Definition mode_0744 : N := 484.
Definition mode_0644 : N := 420.

(** The loop over [b.Files]; the accumulator is [kustomizeResources]. *)
Fixpoint writeFiles (renderDir : string) (excludeKotsKinds : bool)
    (files : list BaseFile) (kustomizeResources : list string) : M (list string) :=
  match files with
  | [] => ret kustomizeResources
  | file :: rest =>
      let writeToBase := ShouldBeIncludedInBaseFilesystem file excludeKotsKinds in
      let writeToKustomization := ShouldBeIncludedInBaseKustomization file excludeKotsKinds in
      if negb writeToBase && negb writeToKustomization then
        writeFiles renderDir excludeKotsKinds rest kustomizeResources
      else
        let kustomizeResources :=
          if writeToKustomization
          then kustomizeResources ++ [path_Join ["."; Path file]]
          else kustomizeResources in
        let* _ :=
          if writeToBase then
            let fileRenderPath := path_Join [renderDir; Path file] in
            let d := fst (path_Split fileRenderPath) in
            let* err := do_Stat d in
            let* _ :=
              if os_IsNotExist err then
                let* err := do_MkdirAll d mode_0744 in
                check err "failed to mkdir"
              else ret tt in
            let* err := do_WriteFile fileRenderPath (Content file) mode_0644 in
            check err "failed to write base file"
          else ret tt in
        writeFiles renderDir excludeKotsKinds rest kustomizeResources
  end.

(** The [Kustomization] literal of [WriteBase]. *)
Definition base_kustomization (kustomizeResources : list string) : Kustomization :=
  {| APIVersion := "kustomize.config.k8s.io/v1beta1";
     Kind := "Kustomization";
     Resources := kustomizeResources;
     PatchesStrategicMerge := [];
     Images := [];
     Bases := [] |}.

Definition WriteBase (b : Base) (options : BaseOpts.WriteOptions) : M unit :=
  let renderDir := BaseOpts.BaseDir options in
  let* err := do_Stat renderDir in
  let* _ :=
    match err with
    | None =>
        if BaseOpts.Overwrite options then
          let* err := do_RemoveAll renderDir in
          check err "failed to remove previous content in base"
        else fail (already_exists renderDir)
    | Some _ => ret tt
    end in
  let* kustomizeResources :=
    writeFiles renderDir (BaseOpts.ExcludeKotsKinds options) (Files b) [] in
  let kustomization := base_kustomization kustomizeResources in
  let* err :=
    do_WriteKustomization kustomization (path_Join [renderDir; "kustomization.yaml"]) in
  check err "failed to write kustomization to file".

(** ** [WriteMidstream] *)

Definition secretFilename : string := "secret.yaml".
Definition patchesFilename : string := "pullsecrets.yaml".

Definition KustomizationFilename (options : MidOpts.WriteOptions) : string :=
  path_Join [MidOpts.MidstreamDir options; "kustomization.yaml"].

Definition with_Kustomization (m : Midstream) (k : Kustomization) : Midstream :=
  {| MKustomization := k; PullSecret := PullSecret m; DocForPatches := DocForPatches m |}.

Definition writePullSecret (m : Midstream) (options : MidOpts.WriteOptions) : M string :=
  match PullSecret m with
  | None => ret ""
  | Some secret =>
      let absFilename := filepath_Join [MidOpts.MidstreamDir options; secretFilename] in
      match k8syaml_Marshal secret with
      | inl e => fail (Wrap (Sys e) "failed to marshal pull secret")
      | inr b =>
          let* err := do_WriteFile absFilename b mode_0644 in
          let* _ := check err "failed to write pull secret file" in
          ret secretFilename
      end
  end.

Definition obejctWithPullSecret (obj : Doc) (secret : option Secret) : Doc :=
  {| DocAPIVersion := DocAPIVersion obj;
     DocKind := DocKind obj;
     DocMetadata := {| MetadataName := MetadataName (DocMetadata obj) |};
     DocSpec := {| SpecTemplate := {| TemplateSpec := {| ImagePullSecrets :=
       [ {[ "name" := "kotsadm-replicated-registry" ]} ] |} |} |} |}.

(** The bytes of the document separator, a line holding three dashes. *)
Definition separator : bytes := [Byte.x2d; Byte.x2d; Byte.x2d; Byte.x0a].

(** The loop over [m.DocForPatches] writing to the handle [f]. *)
Fixpoint writeDocs (f : string) (secret : option Secret) (docs : list Doc) : M unit :=
  match docs with
  | [] => ret tt
  | o :: rest =>
      let withPullSecret := obejctWithPullSecret o secret in
      match yaml_Marshal withPullSecret with
      | inl e => fail (Wrap (Sys e) "failed to marshal object")
      | inr b =>
          let* err := do_FileWrite f separator in
          let* _ := check err "failed to write object" in
          let* err := do_FileWrite f b in
          let* _ := check err "failed to write object" in
          writeDocs f secret rest
      end
  end.

Definition writeObjectsWithPullSecret (m : Midstream) (options : MidOpts.WriteOptions)
  : M string :=
  if Nat.eqb (length (DocForPatches m)) 0 then ret ""
  else
    let filename := filepath_Join [MidOpts.MidstreamDir options; patchesFilename] in
    let* err := do_Create filename in
    let* _ := check err "failed to create resources file" in
    deferring (do_FileClose filename)
      (let* _ := writeDocs filename (PullSecret m) (DocForPatches m) in
       ret patchesFilename).

(** Returns the receiver as the call leaves it. *)
Definition writeKustomization (m : Midstream) (options : MidOpts.WriteOptions)
  : M Midstream :=
  match filepath_Rel (MidOpts.MidstreamDir options) (MidOpts.BaseDir options) with
  | inl e =>
      fail (Wrap (Sys e) "failed to determine relative path for base from midstream")
  | inr relativeBaseDir =>
      let fileRenderPath := KustomizationFilename options in
      let m := with_Kustomization m (set_Bases (MKustomization m) [relativeBaseDir]) in
      let* err := do_WriteKustomization (MKustomization m) fileRenderPath in
      let* _ := check err "failed to write kustomization to file" in
      ret m
  end.

(** The first block of [WriteMidstream]: the existing Kustomization, nil
    when [os.Stat] on its file fails. *)
Definition loadExisting (options : MidOpts.WriteOptions) : M (option Kustomization) :=
  let* err := do_Stat (KustomizationFilename options) in
  match err with
  | None =>
      let* r := do_ReadKustomization (KustomizationFilename options) in
      match r with
      | inl e => fail (Wrap (Sys e) "load existing kustomization")
      | inr k => ret (Some k)
      end
  | Some _ => ret None
  end.

(** Returns the receiver as the call leaves it when the error is nil. *)
Definition WriteMidstream (m : Midstream) (options : MidOpts.WriteOptions) : M Midstream :=
  let* existingKustomization := loadExisting options in
  let* err := do_MkdirAll (MidOpts.MidstreamDir options) mode_0744 in
  let* _ := check err "failed to mkdir" in
  let* secretFilename := wrapping (writePullSecret m options) "failed to write secret" in
  let m :=
    if bool_decide (secretFilename ≠ "")
    then with_Kustomization m
           (set_Resources (MKustomization m)
              (Resources (MKustomization m) ++ [secretFilename]))
    else m in
  let* patchFilename :=
    wrapping (writeObjectsWithPullSecret m options) "failed to write patches" in
  let m :=
    if bool_decide (patchFilename ≠ "")
    then with_Kustomization m
           (set_PatchesStrategicMerge (MKustomization m)
              (PatchesStrategicMerge (MKustomization m) ++ [patchFilename]))
    else m in
  let m := with_Kustomization m (mergeKustomization (MKustomization m) existingKustomization) in
  wrapping (writeKustomization m options) "failed to write kustomization".

End Writers.

(** ** Example inputs *)

Module Ex.

Definition kust (rs : list string) (ps : list PatchStrategicMerge) (ims : list Image)
  : Kustomization :=
  {| APIVersion := "kustomize.config.k8s.io/v1beta1"; Kind := "Kustomization";
     Resources := rs; PatchesStrategicMerge := ps; Images := ims; Bases := [] |}.

(** The image [myapp] pinned to tag [old], and the same name with [new]. *)
Definition myapp_old : Image := mkImage "myapp" "registry.local/myapp" "old" "".
Definition myapp_new : Image := mkImage "myapp" "registry.local/myapp" "new" "".
Definition other : Image := mkImage "db" "registry.local/db" "1" "".

Definition k_old : Kustomization := kust ["a.yaml"] ["custom.yaml"] [myapp_old].
Definition k_new : Kustomization :=
  kust ["a.yaml"; "b.yaml"] ["labels.yaml"] [myapp_new; other].

(** An existing file that lists one path twice. *)
Definition k_repeated : Kustomization := kust ["a.yaml"; "a.yaml"] [] [].
Definition k_nothing : Kustomization := kust [] [] [].

End Ex.

(** ** A small simulated environment

    One concrete [Env], on which the writers can be run: a flat map from
    paths to nodes, a list of paths on which every call is refused with
    [EACCES], and simplified path functions.  It is used to evaluate the
    functions on concrete inputs; the theorems do not depend on it. *)
Module Sim.

Inductive node :=
  | Dir
  | Raw (b : bytes)
  | Kust (k : Kustomization).

Record world := mkWorld { nodes : gmap string node; refused : list string }.

Definition is_refused (p : string) (w : world) : bool := bool_decide (p ∈ refused w).

Definition slash : Ascii.ascii := Ascii.Ascii true true true true false true false false.

(** Splits after the last slash. *)
Fixpoint split (p : string) : string * string :=
  match p with
  | EmptyString => (EmptyString, EmptyString)
  | String c r =>
      let '(d, f) := split r in
      match d with
      | EmptyString =>
          if Ascii.eqb c slash then (String c EmptyString, f) else (EmptyString, String c f)
      | _ => (String c d, f)
      end
  end.

(** The components of a path between slashes; [cur] is the component
    being read. *)
Fixpoint components (p : string) (cur : string) : list string :=
  match p with
  | EmptyString => [cur]
  | String c r =>
      if Ascii.eqb c slash then cur :: components r EmptyString
      else components r (cur +:+ String c EmptyString)
  end.

Fixpoint glue (cs : list string) : string :=
  match cs with
  | [] => EmptyString
  | [c] => c
  | c :: rest => c +:+ "/" +:+ glue rest
  end.

(** Joins the non-empty elements other than the dot. *)
Definition join (elems : list string) : string :=
  match filter (λ e, e ≠ "" ∧ e ≠ ".") elems with
  | [] => "."
  | cs => glue cs
  end.

Fixpoint strip_common (a b : list string) : list string * list string :=
  match a, b with
  | x :: a', y :: b' => if bool_decide (x = y) then strip_common a' b' else (a, b)
  | _, _ => (a, b)
  end.

(** The target relative to the base path: one step up per remaining
    component of the base, then the rest of the target. *)
Definition rel (basepath targpath : string) : syserr + string :=
  let '(up, down) :=
    strip_common (components basepath EmptyString) (components targpath EmptyString) in
  inr (join (((λ _, "..") <$> up) ++ down)).

Definition stat (p : string) (w : world) : option syserr :=
  if is_refused p w then Some EACCES
  else match nodes w !! p with
       | Some _ => None
       | None => Some ENOENT
       end.

Definition put (p : string) (n : node) (w : world) : option syserr * world :=
  if is_refused p w then (Some EACCES, w)
  else (None, mkWorld (<[p := n]> (nodes w)) (refused w)).

Definition under (p q : string) : bool :=
  bool_decide (p = q) || String.prefix (p +:+ "/") q.

Definition removeAll (p : string) (w : world) : option syserr * world :=
  if is_refused p w then (Some EACCES, w)
  else (None, mkWorld (filter (λ kv, under p kv.1 = false) (nodes w)) (refused w)).

Definition mkdirAll (p : string) (perm : N) (w : world) : option syserr * world :=
  match nodes w !! p with
  | Some Dir => (None, w)
  | Some _ => (Some ENOTDIR, w)
  | None => put p Dir w
  end.

Definition writeFile (p : string) (b : bytes) (perm : N) (w : world)
  : option syserr * world :=
  match nodes w !! p with
  | Some Dir => (Some EIO, w)
  | _ => put p (Raw b) w
  end.

Definition fileWrite (p : string) (b : bytes) (w : world) : option syserr * world :=
  match nodes w !! p with
  | Some (Raw old) => put p (Raw (old ++ b)) w
  | _ => (Some EIO, w)
  end.

Definition readKustomization (p : string) (w : world) : syserr + Kustomization :=
  if is_refused p w then inl EACCES
  else match nodes w !! p with
       | Some (Kust k) => inr k
       | Some _ => inl (ECodec "cannot unmarshal")
       | None => inl ENOENT
       end.

(** Files under [kots/] stand for the KOTS kinds: kept out of the
    resource list, and out of the file system when they are excluded. *)
Definition isKotsKind (f : BaseFile) : bool := String.prefix "kots/" (Path f).

Definition env : Env := {|
  World := world;
  Secret := string;
  path_Join := join;
  path_Split := split;
  filepath_Join := join;
  filepath_Rel := rel;
  k8syaml_Marshal := λ s, inr (String.list_byte_of_string s);
  yaml_Marshal := λ d,
    inr (String.list_byte_of_string (DocKind d +:+ "/" +:+ MetadataName (DocMetadata d)));
  ShouldBeIncludedInBaseFilesystem := λ f excl, negb (excl && isKotsKind f);
  ShouldBeIncludedInBaseKustomization := λ f excl, negb (isKotsKind f);
  ReadKustomizationFromFile := readKustomization;
  WriteKustomizationToFile := λ k p, put p (Kust k);
  os_Stat := stat;
  os_RemoveAll := removeAll;
  os_MkdirAll := mkdirAll;
  ioutil_WriteFile := writeFile;
  os_Create := λ p, put p (Raw []);
  File_Write := fileWrite;
  File_Close := λ _ w, w;
|}.

Definition start (w : world) : @State env := @mkState env w [].

(** A world with a populated [base] next to an empty [midstream]. *)
Definition w_base : world :=
  mkWorld (<["base" := Dir]> (<["base/old.yaml" := Raw []]> ∅)) [].

(** The same, but every call on [base] is refused. *)
Definition w_denied : world := mkWorld (nodes w_base) ["base"].

(** An empty world. *)
Definition w_empty : world := mkWorld ∅ [].

(** A world in which an earlier render left [Ex.k_old] in [midstream]. *)
Definition w_rendered : world :=
  mkWorld (<["midstream/kustomization.yaml" := Kust Ex.k_old]>
             (<["midstream" := Dir]> (nodes w_base))) [].

(** A world whose midstream Kustomization file does not parse. *)
Definition w_corrupt : world :=
  mkWorld (<["midstream/kustomization.yaml" := Raw [Byte.x3a]]>
             (<["midstream" := Dir]> (nodes w_base))) [].

Definition options : MidOpts.WriteOptions := MidOpts.mk "midstream" "base".

Definition deployment : Doc :=
  mkDoc "apps/v1" "Deployment" (mkMetadata "web")
    (mkSpec (mkTemplate (mkPodSpec []))).

(** A composer with a pull secret and one document to patch, and one
    with neither. *)
Definition m_secret : @Midstream env :=
  @mkMidstream env Ex.k_new (Some "registry-credentials") [deployment].
Definition m_plain : @Midstream env := @mkMidstream env Ex.k_new None [].

End Sim.

(** ** Vocabulary of the statements *)

Section Vocabulary.
Context `{Env}.

(** The state after further calls that did not change the world. *)
Definition extend (s : State) (evs : list Event) : State :=
  mkState (world s) (trace s ++ evs).

(** Whatever [c] returns, the calls it makes all satisfy [P]. *)
Definition emits {A} (P : Event → Prop) (c : M A) : Prop :=
  ∀ s, ∃ evs, trace (c s).2 = trace s ++ evs ∧ Forall P evs.

(** [c] returns no error but wrapped ones. *)
Definition wraps {A} (c : M A) : Prop :=
  ∀ s e, (c s).1 = inl e → ∃ cause msg, e = Wrap cause msg.

(** The resource list as the spec words it: the joined path of every file
    the inclusion predicate accepts, in input order, repeats kept. *)
Definition listed (excludeKotsKinds : bool) (files : list BaseFile) : list string :=
  (λ f, path_Join ["."; Path f])
    <$> filter (λ f, ShouldBeIncludedInBaseKustomization f excludeKotsKinds) files.

(** [WriteBase] from the loop on, that is, after the guard on [BaseDir]. *)
Definition writeAll (b : Base) (options : BaseOpts.WriteOptions) : M unit :=
  bind (writeFiles (BaseOpts.BaseDir options) (BaseOpts.ExcludeKotsKinds options) (Files b) [])
    (λ kustomizeResources,
       bind (do_WriteKustomization (base_kustomization kustomizeResources)
               (path_Join [BaseOpts.BaseDir options; "kustomization.yaml"]))
         (λ err, check err "failed to write kustomization to file")).

(** The calls of the loop. *)
Definition file_event (ev : Event) : Prop :=
  match ev with
  | EvStat _ | EvMkdirAll _ _ | EvWriteFile _ _ _ => True
  | _ => False
  end.

(** The calls of [WriteBase] before it writes the Kustomization. *)
Definition base_event (ev : Event) : Prop :=
  match ev with
  | EvStat _ | EvRemoveAll _ | EvMkdirAll _ _ | EvWriteFile _ _ _ => True
  | _ => False
  end.

(** The receiver's Kustomization as [WriteMidstream] hands it to the
    merge: with the secret file appended to [Resources] when there is a
    pull secret, and the patch file appended to [PatchesStrategicMerge]
    when there are documents to patch. *)
Definition composed (m : Midstream) : Kustomization :=
  let k := MKustomization m in
  let k :=
    match PullSecret m with
    | Some _ => set_Resources k (Resources k ++ [secretFilename])
    | None => k
    end in
  match DocForPatches m with
  | [] => k
  | _ => set_PatchesStrategicMerge k (PatchesStrategicMerge k ++ [patchesFilename])
  end.

Definition secretPath (options : MidOpts.WriteOptions) : string :=
  filepath_Join [MidOpts.MidstreamDir options; secretFilename].
Definition patchesPath (options : MidOpts.WriteOptions) : string :=
  filepath_Join [MidOpts.MidstreamDir options; patchesFilename].

(** The calls of [WriteMidstream] before it writes the Kustomization:
    which they are, on which path, and when they can occur. *)
Definition mid_event (m : Midstream) (options : MidOpts.WriteOptions) (ev : Event) : Prop :=
  match ev with
  | EvStat p | EvReadKustomization p => p = KustomizationFilename options
  | EvMkdirAll p _ => p = MidOpts.MidstreamDir options
  | EvWriteFile p _ _ => p = secretPath options ∧ PullSecret m ≠ None
  | EvCreate p | EvFileWrite p _ | EvFileClose p =>
      p = patchesPath options ∧ DocForPatches m ≠ []
  | EvRemoveAll _ | EvWriteKustomization _ _ => False
  end.

(** The same, or the final write. *)
Definition mid_event_or_final (m : Midstream) (options : MidOpts.WriteOptions)
    (ev : Event) : Prop :=
  mid_event m options ev ∨ ∃ k, ev = EvWriteKustomization k (KustomizationFilename options).

(** The receiver a run leaves, when it returns nil. *)
Definition left_by (m : Midstream) (run : (error + Midstream) * State) : Midstream :=
  match run.1 with
  | inr m' => m'
  | inl _ => m
  end.

End Vocabulary.

(** ** Package [util]

    The pure helpers of package [util].  A run-time panic (an index out of
    range, an integer division by zero) is the result [None].  The UTF-8
    codec and the random source belong to Go's library and are the fields
    of [Utf8] and [Rand]. *)

(** [CommonSlicePrefix]: the loop [for i, a := range first], entered at
    index [i] with what is left of [first] and the [common] built so far.
    [first[i]] is the range value [a]; [second[i]] is a checked index. *)
Fixpoint CommonSlicePrefix_from (second : list string) (i : nat)
    (first : list string) (common : list string) : option (list string) :=
  match first with
  | [] => Some common
  | a :: rest =>
      if bool_decide (length second < i + 1) then Some common
      else
        match second !! i with
        | None => None
        | Some b =>
            if bool_decide (a ≠ b) then Some common
            else CommonSlicePrefix_from second (S i) rest (common ++ [a])
        end
  end.

Definition CommonSlicePrefix (first second : list string) : option (list string) :=
  CommonSlicePrefix_from second 0 first [].

(** The inner loop of [CompareStringArrays]: [foundMatch] after comparing
    [str] with every element of [arr]. *)
Definition foundMatch (str : string) (arr : list string) : bool :=
  fold_left (λ found other, if bool_decide (str = other) then true else found) arr false.

(** One outer loop of [CompareStringArrays]: [false] is the early
    [return false], [true] falls through to what follows. *)
Fixpoint allMatched (arr other : list string) : bool :=
  match arr with
  | [] => true
  | str :: rest => if negb (foundMatch str other) then false else allMatched rest other
  end.

Definition CompareStringArrays (arr1 arr2 : list string) : bool :=
  if allMatched arr1 arr2 then
    if allMatched arr2 arr1 then true else false
  else false.

(** [bytes.Runes] and the conversion [string(r)] of a rune. *)
Class Utf8 := {
  rune : Type;
  bytes_Runes : string → list rune;
  string_of_rune : rune → string;
}.

(** The random source behind [rand.Intn]: the generator's state is passed
    in and handed back. *)
Class Rand := {
  Rng : Type;
  rand_Intn : Z → Rng → Z * Rng;
}.

Section Util.
Context `{Utf8} `{Rand}.

(** The loop of [SplitStringOnLen] over the runes left, at index [i];
    [len_runes] is [len(runes)].  Go's [%] truncates, as [Z.rem] does, and
    panics on a zero divisor. *)
Fixpoint SplitStringOnLen_from (maxLength len_runes : Z) (i : Z) (runes : list rune)
    (work : string) (result : list string) : option (list string) :=
  match runes with
  | [] => Some result
  | r :: rest =>
      let work := work +:+ string_of_rune r in
      if (maxLength =? 0)%Z then None
      else if (Z.rem (i + 1) maxLength =? 0)%Z then
        SplitStringOnLen_from maxLength len_runes (i + 1) rest "" (result ++ [work])
      else if (i + 1 =? len_runes)%Z then
        SplitStringOnLen_from maxLength len_runes (i + 1) rest work (result ++ [work])
      else
        SplitStringOnLen_from maxLength len_runes (i + 1) rest work result
  end.

(** The error result of [SplitStringOnLen] is nil on every return, so the
    list alone is modelled. *)
Definition SplitStringOnLen (str : string) (maxLength : Z) : option (list string) :=
  if (maxLength >=? Z.of_nat (String.length str))%Z then Some [str]
  else
    let runes := bytes_Runes str in
    SplitStringOnLen_from maxLength (Z.of_nat (length runes)) 0 runes "" [].

(** [passwordLetters]; every rune of it is one byte. *)
Definition passwordLetters : list Ascii.ascii :=
  String.list_ascii_of_string
    "0123456789abcdefghijklmnopqrstuvwxyzABCDEFGHIJKLMNOPQRSTUVWXYZ".

(** The loop of [GenPassword] with [count] rounds to go. *)
Fixpoint GenPassword_from (count : nat) (g : Rng) (outRunes : list Ascii.ascii)
  : option (list Ascii.ascii) * Rng :=
  match count with
  | O => (Some outRunes, g)
  | S count' =>
      let '(idx, g) := rand_Intn (Z.of_nat (length passwordLetters)) g in
      match (if (0 <=? idx)%Z then passwordLetters !! Z.to_nat idx else None) with
      | None => (None, g)
      | Some letter => GenPassword_from count' g (outRunes ++ [letter])
      end
  end.

(** [for i := 0; i < length; i++] runs [length] times, and not at all for
    a [length] below one. *)
Definition GenPassword (length : Z) (g : Rng) : option string * Rng :=
  let '(outRunes, g) := GenPassword_from (Z.to_nat length) g [] in
  (String.string_of_list_ascii <$> outRunes, g).

(** What [rand.Intn] promises: a number from zero up to, and not
    including, its argument. *)
Definition Intn_in_range : Prop :=
  ∀ (n : Z) (g : Rng), (0 < n)%Z → (0 ≤ (rand_Intn n g).1 < n)%Z.

(** The string of a run of runes: [string(r)] of each, in order. *)
Definition string_of_runes (rs : list rune) : string :=
  foldr (λ r s, string_of_rune r +:+ s) "" rs.

(** The strings of a slice, appended in order. *)
Definition joined (chunks : list string) : string := foldr String.append "" chunks.

(** A list cut into pieces of [n]: no piece is empty or longer than [n],
    and every piece but the last has [n] elements. *)
Inductive chunked {A} (n : nat) : list (list A) → Prop :=
  | chunked_nil : chunked n []
  | chunked_last p : 0 < length p ≤ n → chunked n [p]
  | chunked_cons p ps : length p = n → ps ≠ [] → chunked n ps → chunked n (p :: ps).

End Util.

(** A codec for the runs: one rune per byte, which is what [bytes.Runes]
    does on ASCII input. *)
Definition bytewise : Utf8 := {|
  rune := Ascii.ascii;
  bytes_Runes := String.list_ascii_of_string;
  string_of_rune := λ c, String c EmptyString;
|}.

(** A random source for the runs: a linear congruential generator. *)
Definition lcg : Rand := {|
  Rng := Z;
  rand_Intn := λ n g, ((g mod n)%Z, (g * 1103515245 + 12345)%Z);
|}.

(** ** Vocabulary of further statements *)

Section Calls.
Context `{Env}.

(** The [ioutil.WriteFile] calls among [evs]: path, content and mode. *)
Definition writes_of (evs : list Event) : list (string * bytes * N) :=
  omap (λ ev, match ev with
              | EvWriteFile p b perm => Some (p, b, perm)
              | _ => None
              end) evs.

(** The files [WriteBase] is to write: those the file-system predicate
    accepts, in input order, each at its path under [BaseDir]. *)
Definition base_writes (options : BaseOpts.WriteOptions) (files : list BaseFile)
  : list (string * bytes * N) :=
  (λ f, (path_Join [BaseOpts.BaseDir options; Path f], Content f, mode_0644))
    <$> filter (λ f, ShouldBeIncludedInBaseFilesystem f (BaseOpts.ExcludeKotsKinds options))
          files.

(** The calls that write a patch file [f] holding the documents [bs]. *)
Definition patch_calls (f : string) (bs : list bytes) : list Event :=
  [EvCreate f]
  ++ mjoin ((λ b, [EvFileWrite f separator; EvFileWrite f b]) <$> bs)
  ++ [EvFileClose f].




End Calls.

(** ** The merge *)

Section Merge.
Context `{MergeHelpers}.

Lemma merge_nil k : mergeKustomization k None = k.
Proof. reflexivity. Qed.

Lemma merge_Images k existing :
  Images (mergeKustomization k (Some existing))
  = Images k ++ removeExistingImages (Images k) (Images existing).
Proof. reflexivity. Qed.

Lemma merge_Patches k existing :
  PatchesStrategicMerge (mergeKustomization k (Some existing))
  = PatchesStrategicMerge existing
    ++ findNewPatches (PatchesStrategicMerge k) (PatchesStrategicMerge existing).
Proof. reflexivity. Qed.

Lemma merge_Resources k existing :
  Resources (mergeKustomization k (Some existing))
  = Resources existing ++ findNewStrings (Resources k) (Resources existing).
Proof. reflexivity. Qed.

(** The merged [Resources] depend on the receiver's [Resources] only. *)
Lemma merge_Resources_ext k k' existing :
  Resources k = Resources k' →
  Resources (mergeKustomization k existing) = Resources (mergeKustomization k' existing).
Proof.
  intros Heq. destruct existing as [e|]; [|done].
  by rewrite !merge_Resources, Heq.
Qed.

End Merge.

(** What the spec-modelled helpers return. *)
Lemma elem_of_findNewStrings_spec x new existing :
  x ∈ findNewStrings_spec new existing ↔ x ∈ new ∧ x ∉ existing.
Proof. unfold findNewStrings_spec. rewrite list_elem_of_filter. tauto. Qed.

Lemma elem_of_findNewPatches_spec x new existing :
  x ∈ findNewPatches_spec new existing ↔ x ∈ new ∧ x ∉ existing.
Proof. unfold findNewPatches_spec. rewrite list_elem_of_filter. tauto. Qed.

Lemma elem_of_append_new {A} `{EqDecision A} (x : A) (existing new : list A) :
  x ∈ existing ++ filter (λ y, y ∉ existing) new ↔ x ∈ existing ∨ x ∈ new.
Proof.
  rewrite elem_of_app, list_elem_of_filter.
  destruct (decide (x ∈ existing)); tauto.
Qed.

Lemma NoDup_append_new {A} `{EqDecision A} (existing new : list A) :
  NoDup existing → NoDup new → NoDup (existing ++ filter (λ y, y ∉ existing) new).
Proof.
  intros Hex Hnew. apply NoDup_app. split_and!.
  - done.
  - intros x Hx Hin. apply list_elem_of_filter in Hin as [Hnot _]. by apply Hnot.
  - by apply NoDup_filter.
Qed.

(** C1 (as stated, refuted): with [myapp:old] in the existing list and
    [myapp:new] computed under the same name, the merged image list starts
    with the conflicting new entry [myapp:new], whatever the three helpers
    return; so it is not the existing list followed by the new entries of
    other names. *)
Lemma C1_existing_image_does_not_win :
  (∀ H : MergeHelpers,
     head (Images (@mergeKustomization H Ex.k_new (Some Ex.k_old))) = Some Ex.myapp_new)
  ∧ (∀ H : MergeHelpers,
       Ex.myapp_new ∈ Images (@mergeKustomization H Ex.k_new (Some Ex.k_old)))
  ∧ (∀ H : MergeHelpers,
       Images (@mergeKustomization H Ex.k_new (Some Ex.k_old))
       ≠ Images Ex.k_old
         ++ filter (λ i, Name i ∉ (Name <$> Images Ex.k_old)) (Images Ex.k_new)).
Proof.
  split_and!; intros H; rewrite merge_Images; simpl.
  - reflexivity.
  - apply elem_of_cons. by left.
  - intros Heq. discriminate Heq.
Qed.

(** C1 (amended): for every merge with an existing Kustomization, and
    whatever [removeExistingImages] returns, the merged image list is the
    newly computed list, in its order, followed by the entries that
    [removeExistingImages] returns for the new and the existing list.  So
    every newly computed entry is kept at the front, also one whose name an
    existing entry already has. *)
Theorem C1_merge_images_new_first :
  ∀ (H : MergeHelpers) (k existing : Kustomization),
    (Images (mergeKustomization k (Some existing))
      = Images k ++ removeExistingImages (Images k) (Images existing))
    ∧ (Images k `prefix_of` Images (mergeKustomization k (Some existing)))
    ∧ (∀ i, i ∈ Images k → i ∈ Images (mergeKustomization k (Some existing))).
Proof.
  intros H k existing. rewrite merge_Images. split_and!.
  - reflexivity.
  - by apply prefix_app_r.
  - intros i Hi. apply elem_of_app. by left.
Qed.

(** C2 (as stated, refuted): with [myapp:old] existing and [myapp:new]
    computed, the merged image list starts with [myapp:new], so the
    existing image list is not a prefix of it, whatever the helpers
    return. *)
Lemma C2_existing_images_not_a_prefix :
  (∀ H : MergeHelpers,
     head (Images (@mergeKustomization H Ex.k_new (Some Ex.k_old))) = Some Ex.myapp_new)
  ∧ (∀ H : MergeHelpers,
       ¬ (Images Ex.k_old `prefix_of`
            Images (@mergeKustomization H Ex.k_new (Some Ex.k_old)))).
Proof.
  split; intros H; rewrite merge_Images; simpl.
  - reflexivity.
  - intros Hpre. apply prefix_cons_inv_1 in Hpre. discriminate Hpre.
Qed.

(** C2 (amended): for every existing Kustomization [k_old] and newly
    computed [k_new], the merged [Resources] and [PatchesStrategicMerge]
    each start with [k_old]'s entries in their original order, with entries
    of [k_new] appended at the end, and hold exactly the entries that occur
    in [k_old] or [k_new]; the merged [Images] start with [k_new]'s entries
    in their original order.  ([findNewStrings] and [findNewPatches] are
    the spec-modelled ones.) *)
Theorem C2_merge_monotonic :
  ∀ k_new k_old : Kustomization,
    let merged := @mergeKustomization spec_helpers k_new (Some k_old) in
    (Resources k_old `prefix_of` Resources merged)
    ∧ (∀ r, r ∈ Resources merged ↔ r ∈ Resources k_old ∨ r ∈ Resources k_new)
    ∧ (PatchesStrategicMerge k_old `prefix_of` PatchesStrategicMerge merged)
    ∧ (∀ p, p ∈ PatchesStrategicMerge merged
            ↔ p ∈ PatchesStrategicMerge k_old ∨ p ∈ PatchesStrategicMerge k_new)
    ∧ (Images k_new `prefix_of` Images merged)
    ∧ (∀ i, i ∈ Images k_new → i ∈ Images merged).
Proof.
  intros k_new k_old merged. subst merged.
  rewrite merge_Resources, merge_Patches, merge_Images. simpl.
  split_and!.
  - by apply prefix_app_r.
  - intros r. apply elem_of_append_new.
  - by apply prefix_app_r.
  - intros p. apply (elem_of_append_new (A:=string)).
  - by apply prefix_app_r.
  - intros i Hi. apply elem_of_app. by left.
Qed.

(** C3 (as stated, refuted): a path the existing list repeats is repeated
    in the merged [Resources], and with no existing Kustomization a path
    the new list repeats stays repeated, whatever the helpers return; with
    [findNewStrings] as the spec words it, a path repeated in the new list
    and absent from the existing one is appended twice. *)
Lemma C3_repeated_paths_survive :
  (∀ H : MergeHelpers,
     ¬ NoDup (Resources (@mergeKustomization H Ex.k_nothing (Some Ex.k_repeated))))
  ∧ (∀ H : MergeHelpers,
       Resources (@mergeKustomization H Ex.k_repeated None) = ["a.yaml"; "a.yaml"])
  ∧ (Resources (@mergeKustomization spec_helpers Ex.k_repeated (Some Ex.k_nothing))
      = ["a.yaml"; "a.yaml"]).
Proof.
  split_and!.
  - intros H Hnd. rewrite merge_Resources in Hnd. simpl in Hnd.
    apply NoDup_cons in Hnd as [Hnot _]. apply Hnot, elem_of_cons. by left.
  - reflexivity.
  - reflexivity.
Qed.

(** C3 (amended): when neither the existing [Resources] (if there is an
    existing Kustomization) nor the newly computed [Resources] contains a
    path more than once, the merged [Resources] contain no path more than
    once; a path the two lists share occurs once.  Paths are compared by
    exact string equality.  ([findNewStrings] is the spec-modelled one.) *)
Theorem C3_merge_resources_NoDup :
  ∀ (k : Kustomization) (existing : option Kustomization),
    NoDup (Resources k) →
    (∀ e, existing = Some e → NoDup (Resources e)) →
    NoDup (Resources (@mergeKustomization spec_helpers k existing)).
Proof.
  intros k [e|] Hk He.
  - rewrite merge_Resources. simpl. apply NoDup_append_new; [by apply He | done].
  - by rewrite merge_nil.
Qed.

Lemma C3_merge_resources_NoDup_witness :
  NoDup (Resources (@mergeKustomization spec_helpers Ex.k_new (Some Ex.k_old)))
  ∧ (Resources (@mergeKustomization spec_helpers Ex.k_new (Some Ex.k_old))
      = ["a.yaml"; "b.yaml"]).
Proof.
  split; [|reflexivity].
  apply (C3_merge_resources_NoDup Ex.k_new (Some Ex.k_old)).
  - simpl. apply (bool_decide_unpack _). vm_compute. exact I.
  - intros e [= <-]. simpl. apply (bool_decide_unpack _). vm_compute. exact I.
Defined.

(** ** Reasoning about runs *)

Section Runs.
Context `{Env} `{MergeHelpers}.

Lemma emits_weaken {A} (P Q : Event → Prop) (c : M A) :
  (∀ ev, P ev → Q ev) → emits P c → emits Q c.
Proof.
  intros HPQ Hc s. destruct (Hc s) as (evs & Htr & HP).
  exists evs. split; [done|]. eapply Forall_impl; eauto.
Qed.

Lemma emits_ret {A} P (a : A) : emits P (ret a).
Proof. intros s. exists []. simpl. by rewrite app_nil_r. Qed.

Lemma emits_fail {A} P e : emits P (@fail _ A e).
Proof. intros s. exists []. simpl. by rewrite app_nil_r. Qed.

Lemma emits_bind {A B} P (c : M A) (f : A → M B) :
  emits P c → (∀ a, emits P (f a)) → emits P (bind c f).
Proof.
  intros Hc Hf s. unfold bind.
  destruct (Hc s) as (evs1 & Htr1 & HP1).
  destruct (c s) as [[e|a] s1]; simpl in *.
  - by exists evs1.
  - destruct (Hf a s1) as (evs2 & Htr2 & HP2).
    exists (evs1 ++ evs2). split.
    + by rewrite Htr2, Htr1, app_assoc.
    + by apply Forall_app.
Qed.

Lemma emits_observe {A} (P : Event → Prop) ev (f : World → A) :
  P ev → emits P (observe ev f).
Proof. intros HP s. exists [ev]. simpl. split; [done|]. by constructor. Qed.

Lemma emits_perform {A} (P : Event → Prop) ev (f : World → A * World) :
  P ev → emits P (perform ev f).
Proof.
  intros HP s. exists [ev]. unfold perform.
  destruct (f (world s)) as [a w]. simpl. split; [done|]. by constructor.
Qed.

Lemma emits_check P err msg : emits P (check err msg).
Proof. destruct err; [apply emits_fail | apply emits_ret]. Qed.

Lemma emits_wrapping {A} P (c : M A) msg : emits P c → emits P (wrapping c msg).
Proof.
  intros Hc s. unfold wrapping. destruct (Hc s) as (evs & Htr & HP).
  exists evs. by destruct (c s) as [[e|a] s1].
Qed.

Lemma emits_deferring {A} P (d : M unit) (c : M A) :
  emits P d → emits P c → emits P (deferring d c).
Proof.
  intros Hd Hc s. unfold deferring.
  destruct (Hc s) as (evs1 & Htr1 & HP1).
  destruct (c s) as [r s1]. simpl in *.
  destruct (Hd s1) as (evs2 & Htr2 & HP2).
  exists (evs1 ++ evs2). split.
  - by rewrite Htr2, Htr1, app_assoc.
  - by apply Forall_app.
Qed.

(** How the trace grows over one run. *)
Lemma emits_run {A} P (c : M A) s r s' :
  emits P c → c s = (r, s') → ∃ evs, trace s' = trace s ++ evs ∧ Forall P evs.
Proof. intros Hc Hrun. destruct (Hc s) as (evs & Htr & HP). rewrite Hrun in Htr. eauto. Qed.

Lemma wraps_ret {A} (a : A) : wraps (ret a).
Proof. intros s e [=]. Qed.

Lemma wraps_fail {A} cause msg : wraps (@fail _ A (Wrap cause msg)).
Proof. intros s e [= <-]. eauto. Qed.

Lemma wraps_bind {A B} (c : M A) (f : A → M B) :
  wraps c → (∀ a, wraps (f a)) → wraps (bind c f).
Proof.
  intros Hc Hf s e. unfold bind. specialize (Hc s).
  destruct (c s) as [[e1|a] s1]; simpl in *.
  - intros [= <-]. by apply Hc.
  - apply Hf.
Qed.

Lemma wraps_observe {A} ev (f : World → A) : wraps (observe ev f).
Proof. intros s e [=]. Qed.

Lemma wraps_perform {A} ev (f : World → A * World) : wraps (perform ev f).
Proof. intros s e. unfold perform. by destruct (f (world s)). Qed.

Lemma wraps_check err msg : wraps (check err msg).
Proof. destruct err; [apply wraps_fail | apply wraps_ret]. Qed.

(** Runs that return no error. *)
Lemma bind_inr {A B} (c : M A) (f : A → M B) s b s' :
  bind c f s = (inr b, s') → ∃ a s1, c s = (inr a, s1) ∧ f a s1 = (inr b, s').
Proof. unfold bind. destruct (c s) as [[e|a] s1]; [done|]. eauto. Qed.

Lemma check_inr err msg s u s' : check err msg s = (inr u, s') → err = None ∧ s' = s.
Proof. destruct err; [done|]. by intros [= _ <-]. Qed.

Lemma wrapping_inr {A} (c : M A) msg s a s' :
  wrapping c msg s = (inr a, s') → c s = (inr a, s').
Proof. unfold wrapping. by destruct (c s) as [[e|a'] s1]. Qed.

Lemma ret_inr {A} (a b : A) s s' : ret a s = (inr b, s') → b = a ∧ s' = s.
Proof. by intros [= <- <-]. Qed.

End Runs.

Ltac emits_step :=
  first
    [ apply emits_ret | apply emits_fail | apply emits_check
    | apply emits_observe | apply emits_perform
    | apply emits_wrapping | apply emits_deferring
    | apply emits_bind; [|intros ?] ].

Ltac wraps_step :=
  first
    [ apply wraps_ret | apply wraps_fail | apply wraps_check
    | apply wraps_observe | apply wraps_perform
    | apply wraps_bind; [|intros ?] ].

(** ** [WriteBase] *)

Section BaseWriter.
Context `{Env}.

Lemma writeFiles_emits renderDir excl files acc :
  emits file_event (writeFiles renderDir excl files acc).
Proof.
  revert acc. induction files as [|file rest IH]; intros acc; simpl.
  - apply emits_ret.
  - destruct (ShouldBeIncludedInBaseFilesystem file excl),
      (ShouldBeIncludedInBaseKustomization file excl); simpl;
      try apply IH; repeat emits_step; try apply IH; try exact I.
    all: destruct (os_IsNotExist _); repeat emits_step; exact I.
Qed.

Lemma writeFiles_wraps renderDir excl files acc :
  wraps (writeFiles renderDir excl files acc).
Proof.
  revert acc. induction files as [|file rest IH]; intros acc; simpl.
  - apply wraps_ret.
  - destruct (ShouldBeIncludedInBaseFilesystem file excl),
      (ShouldBeIncludedInBaseKustomization file excl); simpl;
      try apply IH; repeat wraps_step; try apply IH.
    all: destruct (os_IsNotExist _); repeat wraps_step.
Qed.

Lemma writeFiles_inr renderDir excl files acc s res s' :
  writeFiles renderDir excl files acc s = (inr res, s') →
  res = acc ++ listed excl files.
Proof.
  unfold listed. revert acc s.
  induction files as [|file rest IH]; intros acc s; simpl.
  - intros [= <- _]. by rewrite app_nil_r.
  - destruct (ShouldBeIncludedInBaseKustomization file excl) eqn:Hk;
      destruct (ShouldBeIncludedInBaseFilesystem file excl) eqn:Hf; simpl.
    + intros (_ & s1 & _ & Hrest)%bind_inr. apply IH in Hrest.
      rewrite filter_cons_True by (rewrite Hk; exact I).
      by rewrite Hrest, <- app_assoc.
    + intros (_ & s1 & _ & Hrest)%bind_inr. apply IH in Hrest.
      rewrite filter_cons_True by (rewrite Hk; exact I).
      by rewrite Hrest, <- app_assoc.
    + intros (_ & s1 & _ & Hrest)%bind_inr. apply IH in Hrest.
      rewrite filter_cons_False by (rewrite Hk; exact id).
      by rewrite Hrest.
    + intros Hrest. apply IH in Hrest.
      rewrite filter_cons_False by (rewrite Hk; exact id).
      by rewrite Hrest.
Qed.

Lemma writeAll_emits b options :
  emits (λ ev, ∀ p, ev ≠ EvRemoveAll p) (writeAll b options).
Proof.
  unfold writeAll. apply emits_bind.
  - eapply emits_weaken; [|apply writeFiles_emits]. by intros [].
  - intros res. repeat emits_step. done.
Qed.

Lemma writeAll_wraps b options : wraps (writeAll b options).
Proof.
  unfold writeAll. apply wraps_bind; [apply writeFiles_wraps|].
  intros res. repeat wraps_step.
Qed.

(** When [os.Stat] on [BaseDir] fails, [WriteBase] is the loop and the
    final write, run after that one call. *)
Lemma WriteBase_stat_fails b options s e :
  os_Stat (BaseOpts.BaseDir options) (world s) = Some e →
  WriteBase b options s
  = writeAll b options (extend s [EvStat (BaseOpts.BaseDir options)]).
Proof.
  intros Hstat. unfold WriteBase, writeAll, do_Stat, observe, bind at 1.
  rewrite Hstat. reflexivity.
Qed.

(** C4: when [os.Stat] on [BaseDir] succeeds (the directory exists) and
    [Overwrite] is false, [WriteBase] returns the already-exists error at
    once: the only call it has made is that [os.Stat], and the world is
    the one it started in. *)
Theorem C4_WriteBase_refuses_existing_dir :
  ∀ (b : Base) (options : BaseOpts.WriteOptions) (s : State),
    os_Stat (BaseOpts.BaseDir options) (world s) = None →
    BaseOpts.Overwrite options = false →
    WriteBase b options s
    = (inl (already_exists (BaseOpts.BaseDir options)),
       mkState (world s) (trace s ++ [EvStat (BaseOpts.BaseDir options)])).
Proof.
  intros b options s Hstat Hover.
  unfold WriteBase, do_Stat, observe, bind. rewrite Hstat, Hover. reflexivity.
Qed.

(** C9: when [WriteBase] returns nil, its last call writes a
    Kustomization at [BaseDir/kustomization.yaml] whose [Resources] are
    exactly [path.Join(".", file.Path)] for the input files that the
    base-kustomization predicate accepts, in input order and with repeated
    paths kept; its [APIVersion] and [Kind] are the fixed ones and its
    other lists are empty, so nothing of an earlier Kustomization is in
    it; and no call before it reads or writes a Kustomization. *)
Theorem C9_WriteBase_resources :
  ∀ (b : Base) (options : BaseOpts.WriteOptions) (s s' : State),
    WriteBase b options s = (inr tt, s') →
    ∃ (k : Kustomization) (evs : list Event),
      trace s'
      = trace s ++ evs
        ++ [EvWriteKustomization k
              (path_Join [BaseOpts.BaseDir options; "kustomization.yaml"])]
      ∧ Resources k
        = (λ f, path_Join ["."; Path f])
            <$> filter (λ f, ShouldBeIncludedInBaseKustomization f
                               (BaseOpts.ExcludeKotsKinds options))
                  (Files b)
      ∧ APIVersion k = "kustomize.config.k8s.io/v1beta1"
      ∧ Kind k = "Kustomization"
      ∧ PatchesStrategicMerge k = []
      ∧ Images k = []
      ∧ Bases k = []
      ∧ Forall base_event evs.
Proof.
  intros b options s s' Hrun. unfold WriteBase in Hrun.
  apply bind_inr in Hrun as (err & s1 & Hstat & Hrun).
  apply bind_inr in Hrun as ([] & s2 & Hguard & Hrun).
  apply bind_inr in Hrun as (res & s3 & Hfiles & Hrun).
  apply bind_inr in Hrun as (err' & s4 & Hwrite & Hcheck).
  apply check_inr in Hcheck as [-> ->].
  pose proof (writeFiles_inr _ _ _ _ _ _ _ Hfiles) as Hres.
  eapply (emits_run base_event) in Hstat as (evs1 & Htr1 & HP1);
    [|by repeat emits_step].
  eapply (emits_run base_event) in Hguard as (evs2 & Htr2 & HP2);
    [|destruct err; [|destruct (BaseOpts.Overwrite options)];
       by repeat emits_step].
  eapply (emits_run base_event) in Hfiles as (evs3 & Htr3 & HP3);
    [|eapply emits_weaken; [|apply writeFiles_emits]; by intros []].
  unfold do_WriteKustomization, perform in Hwrite.
  destruct (WriteKustomizationToFile _ _ _) as [r w]. injection Hwrite as _ <-.
  exists (base_kustomization res), (evs1 ++ evs2 ++ evs3). split_and!.
  - simpl. rewrite Htr3, Htr2, Htr1. by rewrite <- !app_assoc.
  - change (Resources (base_kustomization res)) with res. by rewrite Hres.
  - reflexivity.
  - reflexivity.
  - reflexivity.
  - reflexivity.
  - reflexivity.
  - by rewrite !Forall_app.
Qed.

(** C10: when [os.Stat] on [BaseDir] fails, with whatever error and
    whatever [Overwrite] is, [WriteBase] goes on as a fresh write (the
    loop over the files, then the Kustomization), calls [os.RemoveAll] on
    nothing, and returns nil or a wrapped error, never the already-exists
    error. *)
Theorem C10_WriteBase_stat_error_is_fresh_write :
  ∀ (b : Base) (options : BaseOpts.WriteOptions) (s : State) (e : syserr),
    os_Stat (BaseOpts.BaseDir options) (world s) = Some e →
    WriteBase b options s
    = writeAll b options (extend s [EvStat (BaseOpts.BaseDir options)])
    ∧ (∃ evs,
         trace (WriteBase b options s).2
         = trace s ++ [EvStat (BaseOpts.BaseDir options)] ++ evs
         ∧ Forall (λ ev, ∀ p, ev ≠ EvRemoveAll p) evs)
    ∧ (∀ msg, (WriteBase b options s).1 ≠ inl (Errorf msg)).
Proof.
  intros b options s e Hstat.
  rewrite (WriteBase_stat_fails _ _ _ _ Hstat). split_and!.
  - reflexivity.
  - destruct (writeAll_emits b options (extend s [EvStat (BaseOpts.BaseDir options)]))
      as (evs & Htr & HP).
    exists evs. split; [|done]. rewrite Htr. simpl. by rewrite <- app_assoc.
  - intros msg Herr. apply writeAll_wraps in Herr as (cause & msg' & [=]).
Qed.

End BaseWriter.

(** C4 on the simulated file system: [base] exists, [Overwrite] is false. *)
Lemma C4_WriteBase_refuses_existing_dir_witness :
  @WriteBase Sim.env (mkBase [mkBaseFile "a.yaml" []]) (BaseOpts.mk "base" false false)
    (Sim.start Sim.w_base)
  = (inl (Errorf "directory base already exists"),
     @mkState Sim.env Sim.w_base [EvStat "base"]).
Proof.
  apply (@C4_WriteBase_refuses_existing_dir Sim.env
           (mkBase [mkBaseFile "a.yaml" []]) (BaseOpts.mk "base" false false)
           (Sim.start Sim.w_base)).
  - vm_compute. reflexivity.
  - reflexivity.
Defined.

(** C9 on the simulated file system: three files into an empty world;
    the one under [kots/] is kept out of the resource list and the path
    given twice is listed twice. *)
Lemma C9_WriteBase_resources_witness :
  let b := mkBase [mkBaseFile "a.yaml" []; mkBaseFile "kots/app.yaml" [];
                   mkBaseFile "a.yaml" []] in
  let options := BaseOpts.mk "base" false false in
  let s := Sim.start Sim.w_empty in
  ∃ (k : Kustomization) (evs : list Event),
    trace (@WriteBase Sim.env b options s).2
    = trace s ++ evs ++ [EvWriteKustomization k "base/kustomization.yaml"]
    ∧ Resources k = ["a.yaml"; "a.yaml"]
    ∧ APIVersion k = "kustomize.config.k8s.io/v1beta1"
    ∧ Kind k = "Kustomization"
    ∧ PatchesStrategicMerge k = []
    ∧ Images k = []
    ∧ Bases k = []
    ∧ Forall base_event evs.
Proof.
  intros b options s.
  apply (@C9_WriteBase_resources Sim.env b options s
           (@WriteBase Sim.env b options s).2).
  vm_compute. reflexivity.
Defined.

(** C10 on the simulated file system: every call on [base] is refused
    with [EACCES], [Overwrite] is false. *)
Lemma C10_WriteBase_stat_error_is_fresh_write_witness :
  let b := mkBase [mkBaseFile "a.yaml" []] in
  let options := BaseOpts.mk "base" false false in
  let s := Sim.start Sim.w_denied in
  @WriteBase Sim.env b options s = @writeAll Sim.env b options (extend s [EvStat "base"])
  ∧ (∃ evs,
       trace (@WriteBase Sim.env b options s).2 = trace s ++ [EvStat "base"] ++ evs
       ∧ Forall (λ ev, ∀ p, ev ≠ EvRemoveAll p) evs)
  ∧ (∀ msg, (@WriteBase Sim.env b options s).1 ≠ inl (Errorf msg)).
Proof.
  intros b options s.
  apply (@C10_WriteBase_stat_error_is_fresh_write Sim.env b options s EACCES).
  vm_compute. reflexivity.
Defined.

(** ** [WriteMidstream] *)

Section MidstreamWriter.
Context `{Env} `{MergeHelpers}.

Lemma loadExisting_emits m options : emits (mid_event m options) (loadExisting options).
Proof.
  unfold loadExisting. apply emits_bind; [by repeat emits_step|].
  intros [e|]; [apply emits_ret|].
  apply emits_bind; [by repeat emits_step|].
  intros [e|k]; [apply emits_fail | apply emits_ret].
Qed.

Lemma writePullSecret_emits m options :
  emits (mid_event m options) (writePullSecret m options).
Proof.
  unfold writePullSecret. destruct (PullSecret m) as [secret|] eqn:Hsecret.
  - destruct (k8syaml_Marshal secret) as [e|b]; [apply emits_fail|].
    repeat emits_step. simpl. by rewrite Hsecret.
  - apply emits_ret.
Qed.

Lemma writePullSecret_inr m options s name s' :
  writePullSecret m options s = (inr name, s') →
  name = match PullSecret m with Some _ => secretFilename | None => "" end.
Proof.
  unfold writePullSecret. destruct (PullSecret m) as [secret|].
  - destruct (k8syaml_Marshal secret) as [e|b]; [done|].
    intros (err & s1 & _ & (u & s2 & _ & Hret)%bind_inr)%bind_inr.
    by apply ret_inr in Hret as [-> _].
  - by intros [-> _]%ret_inr.
Qed.

Lemma writeDocs_emits m options secret docs :
  DocForPatches m ≠ [] →
  emits (mid_event m options) (writeDocs (patchesPath options) secret docs).
Proof.
  intros Hdocs. induction docs as [|o rest IH]; simpl.
  - apply emits_ret.
  - destruct (yaml_Marshal _) as [e|b]; [apply emits_fail|].
    repeat emits_step; done.
Qed.

Lemma writeObjectsWithPullSecret_emits m0 m options :
  DocForPatches m = DocForPatches m0 →
  emits (mid_event m0 options) (writeObjectsWithPullSecret m options).
Proof.
  intros Hsame. unfold writeObjectsWithPullSecret.
  destruct (Nat.eqb (length (DocForPatches m)) 0) eqn:Hlen; [apply emits_ret|].
  assert (DocForPatches m0 ≠ []) as Hne
    by (by intros Hnil; rewrite Hsame, Hnil in Hlen).
  apply emits_bind; [by repeat emits_step|]. intros err.
  apply emits_bind; [by repeat emits_step|]. intros _.
  apply emits_deferring; [by repeat emits_step|].
  apply emits_bind; [by apply writeDocs_emits|]. intros _. apply emits_ret.
Qed.

Lemma writeObjectsWithPullSecret_inr m options s name s' :
  writeObjectsWithPullSecret m options s = (inr name, s') →
  name = match DocForPatches m with [] => "" | _ => patchesFilename end.
Proof.
  unfold writeObjectsWithPullSecret.
  destruct (DocForPatches m) as [|o rest]; simpl.
  - by intros [-> _]%ret_inr.
  - intros (err & s1 & _ & (u & s2 & _ & Hrun)%bind_inr)%bind_inr.
    unfold deferring in Hrun.
    destruct (bind _ _ s2) as [r s3] eqn:Hbody. injection Hrun as -> _.
    apply bind_inr in Hbody as (u' & s4 & _ & Hret).
    by apply ret_inr in Hret as [-> _].
Qed.

Lemma writeKustomization_inr m options s m' s' :
  writeKustomization m options s = (inr m', s') →
  ∃ rel,
    filepath_Rel (MidOpts.MidstreamDir options) (MidOpts.BaseDir options) = inr rel
    ∧ m' = with_Kustomization m (set_Bases (MKustomization m) [rel])
    ∧ trace s'
      = trace s ++ [EvWriteKustomization (MKustomization m') (KustomizationFilename options)].
Proof.
  unfold writeKustomization.
  destruct (filepath_Rel _ _) as [e|rel]; [done|].
  intros (err & s1 & Hwrite & (u & s2 & Hcheck & Hret)%bind_inr)%bind_inr.
  apply check_inr in Hcheck as [-> ->]. apply ret_inr in Hret as [-> ->].
  exists rel. split_and!; [done..|].
  unfold do_WriteKustomization, perform in Hwrite.
  destruct (WriteKustomizationToFile _ _ _) as [r w]. by injection Hwrite as _ <-.
Qed.

Lemma writeKustomization_emits m0 m options :
  emits (mid_event_or_final m0 options) (writeKustomization m options).
Proof.
  unfold writeKustomization.
  destruct (filepath_Rel _ _) as [e|rel]; [apply emits_fail|].
  repeat emits_step. right. eauto.
Qed.
Lemma WriteMidstream_emits m options :
  emits (mid_event_or_final m options) (WriteMidstream m options).
Proof.
  assert (∀ A (c : M A), emits (mid_event m options) c →
                         emits (mid_event_or_final m options) c) as Hweak.
  { intros A c. apply emits_weaken. intros ev Hev. by left. }
  unfold WriteMidstream.
  apply emits_bind; [apply Hweak, loadExisting_emits|]. intros existing.
  apply emits_bind; [apply Hweak; by repeat emits_step|]. intros err.
  apply emits_bind; [apply emits_check|]. intros _.
  apply emits_bind; [apply emits_wrapping, Hweak, writePullSecret_emits|].
  intros secretName.
  apply emits_bind.
  - apply emits_wrapping, Hweak.
    apply writeObjectsWithPullSecret_emits. by destruct (bool_decide _).
  - intros patchName. apply emits_wrapping, writeKustomization_emits.
Qed.

(** A run of [WriteMidstream] that returns nil: what was loaded, what the
    receiver holds at the end, and the calls made. *)
Lemma WriteMidstream_inr m options s m' s' :
  WriteMidstream m options s = (inr m', s') →
  ∃ existing s0 rel evs,
    loadExisting options s = (inr existing, s0)
    ∧ filepath_Rel (MidOpts.MidstreamDir options) (MidOpts.BaseDir options) = inr rel
    ∧ MKustomization m' = set_Bases (mergeKustomization (composed m) existing) [rel]
    ∧ trace s'
      = trace s ++ evs
        ++ [EvWriteKustomization (MKustomization m') (KustomizationFilename options)]
    ∧ Forall (mid_event m options) evs.
Proof.
  unfold WriteMidstream. intros Hrun.
  apply bind_inr in Hrun as (existing & s0 & Hload & Hrun).
  apply bind_inr in Hrun as (err & s1 & Hmkdir & Hrun).
  apply bind_inr in Hrun as (u & s1' & Hcheck & Hrun).
  apply check_inr in Hcheck as [-> ->].
  apply bind_inr in Hrun as (secretName & s2 & Hsecret & Hrun).
  apply bind_inr in Hrun as (patchName & s3 & Hpatch & Hrun).
  apply wrapping_inr in Hsecret, Hpatch, Hrun.
  pose proof (writePullSecret_inr _ _ _ _ _ Hsecret) as HsecretName.
  pose proof (writeObjectsWithPullSecret_inr _ _ _ _ _ Hpatch) as HpatchName.
  apply writeKustomization_inr in Hrun as (rel & Hrel & Hm' & Htr).
  eapply (emits_run (mid_event m options)) in Hload as Hev0;
    [|apply loadExisting_emits].
  eapply (emits_run (mid_event m options)) in Hmkdir as Hev1;
    [|by repeat emits_step].
  eapply (emits_run (mid_event m options)) in Hsecret as Hev2;
    [|apply writePullSecret_emits].
  eapply (emits_run (mid_event m options)) in Hpatch as Hev3;
    [|apply writeObjectsWithPullSecret_emits; by destruct (bool_decide _)].
  destruct Hev0 as (evs0 & Htr0 & HP0), Hev1 as (evs1 & Htr1 & HP1),
    Hev2 as (evs2 & Htr2 & HP2), Hev3 as (evs3 & Htr3 & HP3).
  exists existing, s0, rel, (evs0 ++ evs1 ++ evs2 ++ evs3). split_and!.
  - done.
  - done.
  - rewrite Hm'. simpl. f_equal. f_equal. unfold composed.
    assert (DocForPatches
              (if bool_decide (secretName ≠ "")
               then with_Kustomization m
                      (set_Resources (MKustomization m)
                         (Resources (MKustomization m) ++ [secretName]))
               else m) = DocForPatches m) as Hdocs
      by (by destruct (bool_decide _)).
    rewrite Hdocs in HpatchName.
    rewrite HsecretName, HpatchName.
    destruct (PullSecret m), (DocForPatches m); reflexivity.
  - rewrite Htr, Htr3, Htr2, Htr1, Htr0. by rewrite <- !app_assoc.
  - by rewrite !Forall_app.
Qed.

(** C5: when [os.Stat] on the Kustomization file succeeds (the file
    exists) and reading it fails, [WriteMidstream] returns that error,
    wrapped, having called nothing but [os.Stat] and the read: no
    directory is made and no file written, and the world is the one it
    started in.  It does not go on with a nil existing Kustomization. *)
Theorem C5_WriteMidstream_unparsable_existing :
  ∀ (m : Midstream) (options : MidOpts.WriteOptions) (s : State) (e : syserr),
    os_Stat (KustomizationFilename options) (world s) = None →
    ReadKustomizationFromFile (KustomizationFilename options) (world s) = inl e →
    WriteMidstream m options s
    = (inl (Wrap (Sys e) "load existing kustomization"),
       mkState (world s)
         (trace s ++ [EvStat (KustomizationFilename options);
                      EvReadKustomization (KustomizationFilename options)])).
Proof.
  intros m options s e Hstat Hread.
  unfold WriteMidstream, loadExisting, do_Stat, do_ReadKustomization, observe, bind.
  simpl. rewrite Hstat. simpl. rewrite Hread. simpl. by rewrite <- app_assoc.
Qed.

(** C6: when [PullSecret] is nil, [WriteMidstream] (whatever it returns)
    makes no [ioutil.WriteFile] call, and its other calls are on the
    Kustomization file, the midstream directory and the patch file, so it
    writes no [secret.yaml]; and when
    it returns nil, the [Resources] of the Kustomization it has written
    are those of the merge of the receiver's own [Resources] with the
    existing Kustomization that was loaded: nothing was added to them. *)
Theorem C6_WriteMidstream_no_secret :
  ∀ (m : Midstream) (options : MidOpts.WriteOptions) (s : State),
    PullSecret m = None →
    (∃ evs,
       trace (WriteMidstream m options s).2 = trace s ++ evs
       ∧ Forall (λ ev, mid_event_or_final m options ev
                       ∧ ∀ p b perm, ev ≠ EvWriteFile p b perm) evs)
    ∧ (∀ m' s',
         WriteMidstream m options s = (inr m', s') →
         ∃ existing s0,
           loadExisting options s = (inr existing, s0)
           ∧ Resources (MKustomization m')
             = Resources (mergeKustomization (MKustomization m) existing)
           ∧ last (trace s')
             = Some (EvWriteKustomization (MKustomization m')
                       (KustomizationFilename options))).
Proof.
  intros m options s Hnil. split.
  - destruct (WriteMidstream_emits m options s) as (evs & Htr & HP).
    exists evs. split; [done|]. eapply Forall_impl; [exact HP|].
    intros ev Hev. split; [done|].
    destruct Hev as [Hev|[k ->]]; intros p b perm Heq; [subst ev|done].
    simpl in Hev. destruct Hev as [_ Hsome]. by apply Hsome.
  - intros m' s' Hrun.
    apply WriteMidstream_inr in Hrun as (existing & s0 & rel & evs & Hload & _ & Hk & Htr & _).
    exists existing, s0. split_and!; [done| |].
    + rewrite Hk. simpl. apply merge_Resources_ext.
      unfold composed. rewrite Hnil. by destruct (DocForPatches m).
    + by rewrite Htr, app_assoc, last_snoc.
Qed.

(** C8: when [WriteMidstream] returns nil, the Kustomization it has
    written (its last call, at [MidstreamDir/kustomization.yaml]) has as
    [Bases] the one-element list holding [filepath.Rel(MidstreamDir,
    BaseDir)], whatever the receiver's or the existing Kustomization's
    [Bases] were. *)
Theorem C8_WriteMidstream_bases :
  ∀ (m : Midstream) (options : MidOpts.WriteOptions) (s s' : State) (m' : Midstream),
    WriteMidstream m options s = (inr m', s') →
    ∃ rel,
      filepath_Rel (MidOpts.MidstreamDir options) (MidOpts.BaseDir options) = inr rel
      ∧ Bases (MKustomization m') = [rel]
      ∧ last (trace s')
        = Some (EvWriteKustomization (MKustomization m') (KustomizationFilename options)).
Proof.
  intros m options s s' m' Hrun.
  apply WriteMidstream_inr in Hrun as (existing & s0 & rel & evs & _ & Hrel & Hk & Htr & _).
  exists rel. split_and!; [done| |].
  - by rewrite Hk.
  - by rewrite Htr, app_assoc, last_snoc.
Qed.

End MidstreamWriter.

(** ** Written files are referenced *)

Lemma spec_merge_keeps_resource (k : Kustomization) (existing : option Kustomization) r :
  r ∈ Resources k → r ∈ Resources (@mergeKustomization spec_helpers k existing).
Proof.
  intros Hr. destruct existing as [e|]; [|done].
  rewrite merge_Resources. simpl. apply elem_of_append_new. by right.
Qed.

Lemma spec_merge_keeps_patch (k : Kustomization) (existing : option Kustomization) p :
  p ∈ PatchesStrategicMerge k →
  p ∈ PatchesStrategicMerge (@mergeKustomization spec_helpers k existing).
Proof.
  intros Hp. destruct existing as [e|]; [|done].
  rewrite merge_Patches. simpl. apply (elem_of_append_new (A:=string)). by right.
Qed.

Lemma composed_secret `{Env} (m : Midstream) :
  PullSecret m ≠ None → secretFilename ∈ Resources (composed m).
Proof.
  intros Hsecret. unfold composed.
  destruct (PullSecret m); [|done].
  assert (secretFilename
            ∈ Resources (set_Resources (MKustomization m)
                           (Resources (MKustomization m) ++ [secretFilename]))) as Hin
    by (simpl; apply elem_of_app; right; by apply list_elem_of_singleton).
  by destruct (DocForPatches m).
Qed.

Lemma composed_patch `{Env} (m : Midstream) :
  DocForPatches m ≠ [] → patchesFilename ∈ PatchesStrategicMerge (composed m).
Proof.
  intros Hdocs. unfold composed.
  destruct (DocForPatches m); [done|].
  simpl. apply elem_of_app. right. by apply list_elem_of_singleton.
Qed.

(** C7: when [WriteMidstream] returns nil, its last call writes the
    receiver's final Kustomization; if among the calls before it the
    secret file was written, [secret.yaml] is in that Kustomization's
    [Resources], and if the patch file was created or written to,
    [pullsecrets.yaml] is in its [PatchesStrategicMerge], whatever
    Kustomization was there to merge with.  ([findNewStrings] and
    [findNewPatches] are the spec-modelled ones.) *)
Theorem C7_written_files_are_referenced :
  ∀ (E : Env) (m : Midstream) (options : MidOpts.WriteOptions)
    (s s' : State) (m' : Midstream),
    @WriteMidstream E spec_helpers m options s = (inr m', s') →
    ∃ evs,
      trace s'
      = trace s ++ evs
        ++ [EvWriteKustomization (MKustomization m') (KustomizationFilename options)]
      ∧ ((∃ b perm, EvWriteFile (secretPath options) b perm ∈ evs) →
         secretFilename ∈ Resources (MKustomization m'))
      ∧ ((EvCreate (patchesPath options) ∈ evs
          ∨ ∃ b, EvFileWrite (patchesPath options) b ∈ evs) →
         patchesFilename ∈ PatchesStrategicMerge (MKustomization m')).
Proof.
  intros E m options s s' m' Hrun.
  apply WriteMidstream_inr in Hrun as (existing & s0 & rel & evs & _ & _ & Hk & Htr & HP).
  exists evs. rewrite Forall_forall in HP. split_and!; [done| |].
  - intros (b & perm & Hin). apply HP in Hin as [_ Hsecret].
    rewrite Hk. simpl. by apply spec_merge_keeps_resource, composed_secret.
  - intros Hin.
    assert (DocForPatches m ≠ []) as Hdocs.
    { destruct Hin as [Hin|[b Hin]]; by apply HP in Hin as [_ Hdocs]. }
    rewrite Hk. simpl. by apply spec_merge_keeps_patch, composed_patch.
Qed.

(** ** Runs on the simulated file system *)

(** C5 on the simulated file system: the Kustomization file of an earlier
    render holds bytes that do not parse. *)
Lemma C5_WriteMidstream_unparsable_existing_witness :
  @WriteMidstream Sim.env spec_helpers Sim.m_secret Sim.options (Sim.start Sim.w_corrupt)
  = (inl (Wrap (Sys (ECodec "cannot unmarshal")) "load existing kustomization"),
     @mkState Sim.env Sim.w_corrupt
       [EvStat "midstream/kustomization.yaml";
        EvReadKustomization "midstream/kustomization.yaml"]).
Proof.
  apply (@C5_WriteMidstream_unparsable_existing Sim.env spec_helpers
           Sim.m_secret Sim.options (Sim.start Sim.w_corrupt)
           (ECodec "cannot unmarshal")).
  - vm_compute. reflexivity.
  - vm_compute. reflexivity.
Defined.

(** C6 on the simulated file system: no pull secret, an earlier render
    present. *)
Lemma C6_WriteMidstream_no_secret_witness :
  let run s := @WriteMidstream Sim.env spec_helpers Sim.m_plain Sim.options s in
  let s := Sim.start Sim.w_rendered in
  (∃ evs,
     trace (run s).2 = trace s ++ evs
     ∧ Forall (λ ev, @mid_event_or_final Sim.env Sim.m_plain Sim.options ev
                     ∧ ∀ p b perm, ev ≠ EvWriteFile p b perm) evs)
  ∧ (∀ m' s',
       run s = (inr m', s') →
       ∃ existing s0,
         @loadExisting Sim.env Sim.options s = (inr existing, s0)
         ∧ Resources (MKustomization m')
           = Resources (@mergeKustomization spec_helpers
                          (MKustomization Sim.m_plain) existing)
         ∧ last (trace s')
           = Some (EvWriteKustomization (MKustomization m')
                     (@KustomizationFilename Sim.env Sim.options))).
Proof.
  intros run s.
  apply (@C6_WriteMidstream_no_secret Sim.env spec_helpers
           Sim.m_plain Sim.options s).
  reflexivity.
Defined.

(** C7 on the simulated file system: a pull secret, one document to
    patch, an earlier render present. *)
Lemma C7_written_files_are_referenced_witness :
  let s := Sim.start Sim.w_rendered in
  let run := @WriteMidstream Sim.env spec_helpers Sim.m_secret Sim.options s in
  let m' := left_by Sim.m_secret run in
  ∃ evs,
    trace run.2
    = trace s ++ evs
      ++ [EvWriteKustomization (MKustomization m') "midstream/kustomization.yaml"]
    ∧ ((∃ b perm, EvWriteFile "midstream/secret.yaml" b perm ∈ evs) →
       "secret.yaml" ∈ Resources (MKustomization m'))
    ∧ ((EvCreate "midstream/pullsecrets.yaml" ∈ evs
        ∨ ∃ b, EvFileWrite "midstream/pullsecrets.yaml" b ∈ evs) →
       "pullsecrets.yaml" ∈ PatchesStrategicMerge (MKustomization m')).
Proof.
  intros s run m'.
  apply (C7_written_files_are_referenced Sim.env Sim.m_secret Sim.options s run.2 m').
  vm_compute. reflexivity.
Defined.

(** C8 on the simulated file system: the earlier render has no [Bases]. *)
Lemma C8_WriteMidstream_bases_witness :
  let s := Sim.start Sim.w_rendered in
  let run := @WriteMidstream Sim.env spec_helpers Sim.m_secret Sim.options s in
  let m' := left_by Sim.m_secret run in
  ∃ rel,
    Sim.rel "midstream" "base" = inr rel
    ∧ Bases (MKustomization m') = [rel]
    ∧ last (trace run.2)
      = Some (EvWriteKustomization (MKustomization m') "midstream/kustomization.yaml").
Proof.
  intros s run m'.
  apply (@C8_WriteMidstream_bases Sim.env spec_helpers
           Sim.m_secret Sim.options s run.2 m').
  vm_compute. reflexivity.
Defined.

(** ** Package [util]: slices of strings *)

Lemma CommonSlicePrefix_from_max second i first common :
  CommonSlicePrefix_from second i first common
  = Some (common ++ (max_prefix first (drop i second)).2).
Proof.
  revert i common. induction first as [|a rest IH]; intros i common; simpl.
  - by rewrite app_nil_r.
  - case_bool_decide as Hlen.
    + rewrite drop_ge by lia. simpl. by rewrite app_nil_r.
    + destruct (second !! i) as [b|] eqn:Hb.
      2:{ apply lookup_ge_None in Hb. lia. }
      rewrite (drop_S _ _ _ Hb). simpl.
      case_bool_decide as Hab.
      * destruct (decide_rel eq a b); [done|].
        simpl. by rewrite app_nil_r.
      * subst b.
        rewrite IH. destruct (decide_rel eq a a); [|done].
        destruct (max_prefix rest (drop (S i) second)) as [[k1 k2] k3].
        simpl. by rewrite <- app_assoc.
Qed.

Lemma CommonSlicePrefix_max first second :
  CommonSlicePrefix first second = Some (max_prefix first second).2.
Proof. unfold CommonSlicePrefix. by rewrite CommonSlicePrefix_from_max. Qed.

Lemma prefix_both_eq {A} (k l : list A) : k `prefix_of` l → l `prefix_of` k → k = l.
Proof.
  intros [k' ->] [l' Hl]. rewrite <- app_assoc in Hl.
  rewrite <- (app_nil_r k) in Hl at 1. apply app_inv_head in Hl.
  symmetry in Hl. apply app_eq_nil in Hl as [-> _]. by rewrite app_nil_r.
Qed.

(** X1: [CommonSlicePrefix] never indexes out of range, and what it
    returns is the longest common prefix of its two arguments: a prefix of
    both, of which every prefix of both is a prefix. *)
Theorem X1_CommonSlicePrefix_longest :
  ∀ first second : list string,
    ∃ common,
      CommonSlicePrefix first second = Some common
      ∧ common `prefix_of` first
      ∧ common `prefix_of` second
      ∧ (∀ k, k `prefix_of` first → k `prefix_of` second → k `prefix_of` common).
Proof.
  intros first second. exists (max_prefix first second).2. split_and!.
  - apply CommonSlicePrefix_max.
  - apply max_prefix_fst_prefix.
  - apply max_prefix_snd_prefix.
  - intros k. apply max_prefix_max.
Qed.

(** X2: although the loop ranges over [first] only, [CommonSlicePrefix]
    is symmetric in its arguments, and a slice is its own common prefix
    with itself. *)
Theorem X2_CommonSlicePrefix_symmetric :
  ∀ first second : list string,
    CommonSlicePrefix first second = CommonSlicePrefix second first
    ∧ CommonSlicePrefix first first = Some first.
Proof.
  intros first second. rewrite !CommonSlicePrefix_max. split.
  - f_equal. apply prefix_both_eq; apply max_prefix_max;
      auto using max_prefix_fst_prefix, max_prefix_snd_prefix.
  - f_equal. apply prefix_both_eq; [apply max_prefix_fst_prefix|].
    by apply max_prefix_max.
Qed.

Lemma foundMatch_from (str : string) (arr : list string) (found : bool) :
  fold_left (λ found other, if bool_decide (str = other) then true else found) arr found
  = found || bool_decide (str ∈ arr).
Proof.
  revert found. induction arr as [|other rest IH]; intros found; cbn [fold_left].
  - rewrite (bool_decide_eq_false_2 (str ∈ [])) by apply not_elem_of_nil.
    by rewrite orb_false_r.
  - rewrite IH. destruct (decide (str = other)) as [<-|Hne].
    + rewrite (bool_decide_eq_true_2 (str = str)) by done.
      rewrite (bool_decide_eq_true_2 (str ∈ str :: rest)) by (by left).
      by rewrite orb_true_r.
    + rewrite (bool_decide_eq_false_2 (str = other)) by done.
      f_equal. apply bool_decide_ext. rewrite elem_of_cons. tauto.
Qed.

Lemma foundMatch_elem_of (str : string) (arr : list string) : foundMatch str arr = true ↔ str ∈ arr.
Proof. unfold foundMatch. rewrite foundMatch_from. simpl. apply bool_decide_eq_true. Qed.

Lemma allMatched_subseteq (arr other : list string) : allMatched arr other = true ↔ arr ⊆ other.
Proof.
  induction arr as [|str rest IH]; simpl.
  - split; [|done]. intros _ x Hx. by apply not_elem_of_nil in Hx.
  - destruct (foundMatch str other) eqn:Hfound; simpl.
    + apply foundMatch_elem_of in Hfound. rewrite IH. split.
      * intros Hrest x [->|Hx]%elem_of_cons; [done|by apply Hrest].
      * intros Hall x Hx. apply Hall. by right.
    + split; [done|]. intros Hall.
      assert (foundMatch str other = true) as Htrue
        by (apply foundMatch_elem_of, Hall; by left).
      congruence.
Qed.

Lemma CompareStringArrays_true (arr1 arr2 : list string) :
  CompareStringArrays arr1 arr2 = true ↔ (∀ x, x ∈ arr1 ↔ x ∈ arr2).
Proof.
  unfold CompareStringArrays.
  destruct (allMatched arr1 arr2) eqn:H12; destruct (allMatched arr2 arr1) eqn:H21.
  - apply allMatched_subseteq in H12, H21. split; [|done]. intros _ x. split; auto.
  - split; [done|]. intros Hall.
    assert (allMatched arr2 arr1 = true) as Htrue
      by (apply allMatched_subseteq; intros x; apply Hall).
    congruence.
  - split; [done|]. intros Hall.
    assert (allMatched arr1 arr2 = true) as Htrue
      by (apply allMatched_subseteq; intros x; apply Hall).
    congruence.
  - split; [done|]. intros Hall.
    assert (allMatched arr1 arr2 = true) as Htrue
      by (apply allMatched_subseteq; intros x; apply Hall).
    congruence.
Qed.

Lemma CompareStringArrays_ext (arr1 arr1' arr2 arr2' : list string) :
  (∀ x, x ∈ arr1 ↔ x ∈ arr1') → (∀ x, x ∈ arr2 ↔ x ∈ arr2') →
  CompareStringArrays arr1 arr2 = CompareStringArrays arr1' arr2'.
Proof.
  intros H1 H2.
  assert (CompareStringArrays arr1 arr2 = true
          ↔ CompareStringArrays arr1' arr2' = true) as Hiff.
  { rewrite !CompareStringArrays_true.
    split; intros Hall x; specialize (Hall x); rewrite ?H1, ?H2 in *;
      by rewrite <- ?H1, <- ?H2 in *. }
  destruct (CompareStringArrays arr1 arr2), (CompareStringArrays arr1' arr2');
    intuition congruence.
Qed.

(** X3: [CompareStringArrays] returns true exactly when every element of
    either slice occurs in the other. *)
Theorem X3_CompareStringArrays_same_elements :
  ∀ arr1 arr2 : list string,
    CompareStringArrays arr1 arr2 = true ↔ (∀ x, x ∈ arr1 ↔ x ∈ arr2).
Proof. intros arr1 arr2. apply CompareStringArrays_true. Qed.

(** X4: the answer of [CompareStringArrays] does not change when either
    slice is reordered, nor when repeated elements are dropped from it. *)
Theorem X4_CompareStringArrays_order_and_repeats :
  ∀ arr1 arr1' arr2 arr2' : list string,
    arr1 ≡ₚ arr1' → arr2 ≡ₚ arr2' →
    CompareStringArrays arr1 arr2 = CompareStringArrays arr1' arr2'
    ∧ CompareStringArrays arr1 arr2
      = CompareStringArrays (remove_dups arr1) (remove_dups arr2).
Proof.
  intros arr1 arr1' arr2 arr2' Hp1 Hp2. split.
  - apply CompareStringArrays_ext; intros x; [by rewrite Hp1 | by rewrite Hp2].
  - apply CompareStringArrays_ext; intros x; by rewrite elem_of_remove_dups.
Qed.

Lemma X4_CompareStringArrays_order_and_repeats_witness :
  CompareStringArrays ["a"; "b"; "a"] ["b"; "a"]
  = CompareStringArrays ["b"; "a"; "a"] ["a"; "b"]
  ∧ CompareStringArrays ["a"; "b"; "a"] ["b"; "a"]
    = CompareStringArrays (remove_dups ["a"; "b"; "a"]) (remove_dups ["b"; "a"]).
Proof.
  apply (X4_CompareStringArrays_order_and_repeats
           ["a"; "b"; "a"] ["b"; "a"; "a"] ["b"; "a"] ["a"; "b"]).
  - apply (Permutation_swap "b" "a" ["a"]).
  - apply (Permutation_swap "a" "b" []).
Defined.

(** ** Package [util]: [SplitStringOnLen] *)

Lemma append_nil_r (s : string) : s +:+ "" = s.
Proof.
  induction s as [|c s IH]; [done|].
  change (String c s +:+ "") with (String c (s +:+ "")). by rewrite IH.
Qed.

Lemma append_assoc (s t u : string) : (s +:+ t) +:+ u = s +:+ t +:+ u.
Proof.
  induction s as [|c s IH]; [done|].
  change (String c ((s +:+ t) +:+ u) = String c (s +:+ t +:+ u)). by rewrite IH.
Qed.

Lemma chunked_lookup {A} (n : nat) (pieces : list (list A)) (j : nat) (p : list A) :
  chunked n pieces → pieces !! j = Some p →
  0 < length p ≤ n ∧ (S j < length pieces → length p = n).
Proof.
  intros Hch. revert j p.
  induction Hch as [|q Hq|q ps Hq Hne Hch IH]; intros j p Hj.
  - done.
  - destruct j as [|j]; [|done]. injection Hj as ->. split; [done|]. simpl. lia.
  - destruct j as [|j]; simpl in Hj.
    + injection Hj as ->. split; [|done].
      destruct ps as [|p' ps']; [done|].
      destruct (IH 0 p' eq_refl) as [Hp' _]. lia.
    + destruct (IH j p Hj) as [Hlen Hfull]. split; [done|]. simpl. intros Hlt.
      apply Hfull. lia.
Qed.

Section SplitStringOnLen.
Context `{Utf8}.

Lemma string_of_runes_app rs1 rs2 :
  string_of_runes (rs1 ++ rs2) = string_of_runes rs1 +:+ string_of_runes rs2.
Proof.
  induction rs1 as [|r rs1 IH]; [done|].
  simpl. by rewrite IH, append_assoc.
Qed.

Lemma string_of_runes_snoc rs r :
  string_of_runes (rs ++ [r]) = string_of_runes rs +:+ string_of_rune r.
Proof. rewrite string_of_runes_app. simpl. by rewrite append_nil_r. Qed.

Lemma joined_app chunks1 chunks2 :
  joined (chunks1 ++ chunks2) = joined chunks1 +:+ joined chunks2.
Proof.
  induction chunks1 as [|c chunks1 IH]; [done|].
  simpl. by rewrite IH, append_assoc.
Qed.

Lemma joined_pieces (pieces : list (list rune)) :
  joined (string_of_runes <$> pieces) = string_of_runes (mjoin pieces).
Proof.
  induction pieces as [|p pieces IH]; [done|].
  change (string_of_runes p +:+ joined (string_of_runes <$> pieces)
          = string_of_runes (p ++ mjoin pieces)).
  by rewrite IH, string_of_runes_app.
Qed.

(** The loop cuts what is left into pieces: [cur] holds the runes of
    [work], of which there are fewer than [|maxLength|], and [i] is a
    multiple of [|maxLength|] past them. *)
Lemma SplitStringOnLen_from_pieces maxLength len_runes rs :
  ∀ i cur result,
    maxLength ≠ 0%Z →
    (Z.of_nat (length cur) < Z.abs maxLength)%Z →
    (Z.abs maxLength | i - Z.of_nat (length cur))%Z →
    len_runes = (i + Z.of_nat (length rs))%Z →
    (rs = [] → cur = []) →
    ∃ tail,
      SplitStringOnLen_from maxLength len_runes i rs (string_of_runes cur) result
      = Some (result ++ (string_of_runes <$> tail))
      ∧ mjoin tail = cur ++ rs
      ∧ chunked (Z.to_nat (Z.abs maxLength)) tail.
Proof.
  induction rs as [|r rest IH]; intros i cur result Hnz Hcur Hdiv Hlen Hend.
  - rewrite (Hend eq_refl). exists []. simpl. rewrite app_nil_r.
    split_and!; [done..|constructor].
  - cbn [SplitStringOnLen_from]. rewrite <- string_of_runes_snoc.
    destruct (Z.eqb_spec maxLength 0) as [|_]; [done|].
    assert (Z.rem (i + 1) maxLength = 0%Z
            ↔ (Z.of_nat (length cur) + 1 = Z.abs maxLength)%Z) as Hfull.
    { rewrite (Z.rem_divide _ _ Hnz), <- Z.divide_abs_l. split.
      - intros Hdiv1.
        assert (Z.abs maxLength | Z.of_nat (length cur) + 1)%Z as Hc.
        { replace (Z.of_nat (length cur) + 1)%Z
            with ((i + 1) - (i - Z.of_nat (length cur)))%Z by lia.
          by apply Z.divide_sub_r. }
        apply Z.divide_pos_le in Hc; lia.
      - intros Heq.
        replace (i + 1)%Z
          with ((i - Z.of_nat (length cur)) + Z.abs maxLength)%Z by lia.
        apply Z.divide_add_r; [done|apply Z.divide_refl]. }
    cbn [length] in Hlen.
    destruct (Z.eqb_spec (Z.rem (i + 1) maxLength) 0) as [Hrem|Hrem].
    + apply Hfull in Hrem.
      destruct (IH (i + 1)%Z [] (result ++ [string_of_runes (cur ++ [r])]))
        as (tail & Hrun & Hjoin & Hch); [done|simpl; lia| |lia|done|].
      { simpl. rewrite Z.sub_0_r. apply Z.divide_abs_l, (Z.rem_divide _ _ Hnz).
        by apply Hfull. }
      exists ((cur ++ [r]) :: tail). split_and!.
      * simpl in Hrun. rewrite Hrun. simpl. by rewrite <- app_assoc.
      * simpl. simpl in Hjoin. by rewrite Hjoin, <- app_assoc.
      * destruct tail as [|p tail].
        -- apply chunked_last. rewrite length_app. simpl. lia.
        -- apply chunked_cons; [rewrite length_app; simpl; lia|done|done].
    + destruct (Z.eqb_spec (i + 1) len_runes) as [Hlast|Hmore].
      * destruct rest as [|r' rest']; [|simpl in Hlen; lia].
        exists [cur ++ [r]]. simpl. rewrite app_nil_r. split_and!; [done..|].
        apply chunked_last. rewrite length_app. simpl. lia.
      * assert (Z.of_nat (length cur) + 1 ≠ Z.abs maxLength)%Z as Hnot
          by (intros Heq; by apply Hrem, Hfull).
        destruct (IH (i + 1)%Z (cur ++ [r]) result)
          as (tail & Hrun & Hjoin & Hch); [done|rewrite length_app; simpl; lia| |lia| |].
        { rewrite length_app. simpl.
          replace (i + 1 - Z.of_nat (length cur + 1))%Z
            with (i - Z.of_nat (length cur))%Z by lia.
          done. }
        { intros ->. simpl in Hlen. lia. }
        exists tail. split_and!; [done| |done].
        by rewrite Hjoin, <- app_assoc.
Qed.

Lemma SplitStringOnLen_pieces (str : string) (maxLength : Z) :
  maxLength ≠ 0%Z →
  (maxLength < Z.of_nat (String.length str))%Z →
  ∃ pieces,
    SplitStringOnLen str maxLength = Some (string_of_runes <$> pieces)
    ∧ mjoin pieces = bytes_Runes str
    ∧ chunked (Z.to_nat (Z.abs maxLength)) pieces.
Proof.
  intros Hnz Hlt. unfold SplitStringOnLen.
  destruct (Z.geb_spec maxLength (Z.of_nat (String.length str))) as [Hge|_]; [lia|].
  destruct (SplitStringOnLen_from_pieces maxLength
              (Z.of_nat (length (bytes_Runes str))) (bytes_Runes str) 0%Z [] [])
    as (pieces & Hrun & Hjoin & Hch); [done|simpl; lia|simpl; apply Z.divide_0_r|lia|done|].
  exists pieces. by split_and!.
Qed.

(** X5: for a [maxLength] other than zero and below the byte length of
    [str], [SplitStringOnLen] cuts the runes of [str] into pieces and
    returns the string of each: the pieces put together are the runes of
    [str], no piece is empty or has more than [|maxLength|] runes, and
    every piece but the last has exactly [|maxLength|]. *)
Theorem X5_SplitStringOnLen_pieces :
  ∀ (str : string) (maxLength : Z),
    maxLength ≠ 0%Z →
    (maxLength < Z.of_nat (String.length str))%Z →
    ∃ pieces : list (list rune),
      SplitStringOnLen str maxLength = Some (string_of_runes <$> pieces)
      ∧ mjoin pieces = bytes_Runes str
      ∧ (∀ j p, pieces !! j = Some p →
           0 < length p ≤ Z.to_nat (Z.abs maxLength)
           ∧ (S j < length pieces → length p = Z.to_nat (Z.abs maxLength))).
Proof.
  intros str maxLength Hnz Hlt.
  destruct (SplitStringOnLen_pieces str maxLength Hnz Hlt) as (pieces & Hrun & Hjoin & Hch).
  exists pieces. split_and!; [done..|].
  intros j p. by apply chunked_lookup.
Qed.

(** X6: [SplitStringOnLen] panics (an integer division by zero) exactly
    when [maxLength] is zero and [str] is not empty and has a rune. *)
Theorem X6_SplitStringOnLen_panics_on_zero :
  ∀ (str : string) (maxLength : Z),
    SplitStringOnLen str maxLength = None
    ↔ maxLength = 0%Z ∧ str ≠ "" ∧ bytes_Runes str ≠ [].
Proof.
  intros str maxLength. split.
  - intros Hnone. destruct (decide (maxLength = 0%Z)) as [->|Hnz].
    + unfold SplitStringOnLen in Hnone.
      destruct (Z.geb_spec 0 (Z.of_nat (String.length str))) as [Hge|Hlt]; [done|].
      split_and!; [done| |].
      * intros ->. simpl in Hlt. lia.
      * intros Hnil. by rewrite Hnil in Hnone.
    + unfold SplitStringOnLen in Hnone.
      destruct (Z.geb_spec maxLength (Z.of_nat (String.length str))) as [Hge|Hlt]; [done|].
      destruct (SplitStringOnLen_pieces str maxLength Hnz Hlt) as (pieces & Hrun & _).
      unfold SplitStringOnLen in Hrun.
      destruct (Z.geb_spec maxLength (Z.of_nat (String.length str))); [lia|].
      congruence.
  - intros (-> & Hstr & Hrunes). unfold SplitStringOnLen.
    destruct (Z.geb_spec 0 (Z.of_nat (String.length str))) as [Hge|Hlt].
    + destruct str; [done|]. simpl in Hge. lia.
    + by destruct (bytes_Runes str).
Qed.

(** X7: the chunks of [SplitStringOnLen], appended in order, are [str]
    again, for every [maxLength] other than zero and every [str] that its
    runes spell (valid UTF-8). *)
Theorem X7_SplitStringOnLen_joined :
  ∀ (str : string) (maxLength : Z),
    maxLength ≠ 0%Z →
    string_of_runes (bytes_Runes str) = str →
    ∃ chunks, SplitStringOnLen str maxLength = Some chunks ∧ joined chunks = str.
Proof.
  intros str maxLength Hnz Hvalid.
  destruct (Z.lt_ge_cases maxLength (Z.of_nat (String.length str))) as [Hlt|Hge].
  - destruct (SplitStringOnLen_pieces str maxLength Hnz Hlt) as (pieces & Hrun & Hjoin & _).
    exists (string_of_runes <$> pieces). split; [done|].
    by rewrite joined_pieces, Hjoin.
  - exists [str]. unfold SplitStringOnLen.
    destruct (Z.geb_spec maxLength (Z.of_nat (String.length str))); [|lia].
    split; [done|]. simpl. apply append_nil_r.
Qed.

Lemma SplitStringOnLen_from_opp maxLength len_runes rs :
  ∀ i work result,
    SplitStringOnLen_from (- maxLength) len_runes i rs work result
    = SplitStringOnLen_from maxLength len_runes i rs work result.
Proof.
  induction rs as [|r rest IH]; intros i work result; [done|].
  cbn [SplitStringOnLen_from]. rewrite Z.rem_opp_r', !IH.
  destruct (Z.eqb_spec maxLength 0) as [->|Hnz]; [done|].
  destruct (Z.eqb_spec (- maxLength) 0); [lia|done].
Qed.

(** X8: a negative [maxLength] is not refused: on a [str] longer than
    [|maxLength|] bytes it splits as [|maxLength|] does, and the empty
    string is split into no chunk at all instead of one empty chunk. *)
Theorem X8_SplitStringOnLen_negative :
  ∀ (str : string) (k : Z),
    (0 < k)%Z →
    ((k < Z.of_nat (String.length str))%Z →
       SplitStringOnLen str (- k) = SplitStringOnLen str k)
    ∧ (bytes_Runes "" = [] →
       SplitStringOnLen "" (- k) = Some [] ∧ SplitStringOnLen "" k = Some [""]).
Proof.
  intros str k Hk. split.
  - intros Hlt. unfold SplitStringOnLen.
    destruct (Z.geb_spec (- k) (Z.of_nat (String.length str))); [lia|].
    destruct (Z.geb_spec k (Z.of_nat (String.length str))); [lia|].
    apply SplitStringOnLen_from_opp.
  - intros Hnil. unfold SplitStringOnLen. simpl. change (Z.of_nat 0) with 0%Z.
    destruct (Z.geb_spec (- k) 0); [lia|].
    destruct (Z.geb_spec k 0); [|lia].
    by rewrite Hnil.
Qed.

End SplitStringOnLen.

(** X5 with one rune per byte: seven bytes in chunks of three. *)
Lemma X5_SplitStringOnLen_pieces_witness :
  ∃ pieces : list (list Ascii.ascii),
    @SplitStringOnLen bytewise "abcdefg" 3
    = Some (@string_of_runes bytewise <$> pieces)
    ∧ mjoin pieces = @bytes_Runes bytewise "abcdefg"
    ∧ (∀ j p, pieces !! j = Some p →
         0 < length p ≤ Z.to_nat (Z.abs 3)
         ∧ (S j < length pieces → length p = Z.to_nat (Z.abs 3))).
Proof.
  apply (@X5_SplitStringOnLen_pieces bytewise "abcdefg" 3%Z).
  - lia.
  - simpl. lia.
Defined.

(** X7 with one rune per byte. *)
Lemma X7_SplitStringOnLen_joined_witness :
  ∃ chunks,
    @SplitStringOnLen bytewise "abcdefg" 3 = Some chunks ∧ joined chunks = "abcdefg".
Proof.
  apply (@X7_SplitStringOnLen_joined bytewise "abcdefg" 3%Z).
  - lia.
  - reflexivity.
Defined.

(** X8 with one rune per byte. *)
Lemma X8_SplitStringOnLen_negative_witness :
  ((3 < Z.of_nat (String.length "abcdefg"))%Z →
     @SplitStringOnLen bytewise "abcdefg" (- 3) = @SplitStringOnLen bytewise "abcdefg" 3)
  ∧ (@bytes_Runes bytewise "" = [] →
     @SplitStringOnLen bytewise "" (- 3) = Some []
     ∧ @SplitStringOnLen bytewise "" 3 = Some [""]).
Proof.
  apply (@X8_SplitStringOnLen_negative bytewise "abcdefg" 3%Z). lia.
Defined.

(** ** Package [util]: [GenPassword] *)

Lemma length_string_of_list_ascii (l : list Ascii.ascii) :
  String.length (String.string_of_list_ascii l) = length l.
Proof. induction l as [|c l IH]; [done|]. simpl. by rewrite IH. Qed.

Section GenPassword.
Context `{Rand}.

Lemma GenPassword_from_letters count :
  Intn_in_range →
  ∀ g outRunes,
    ∃ letters,
      (GenPassword_from count g outRunes).1 = Some (outRunes ++ letters)
      ∧ length letters = count
      ∧ Forall (λ c, c ∈ passwordLetters) letters.
Proof.
  intros Hrange. induction count as [|count IH]; intros g outRunes.
  - exists []. simpl. by rewrite app_nil_r.
  - cbn [GenPassword_from].
    pose proof (Hrange (Z.of_nat (length passwordLetters)) g) as Hidx.
    destruct (rand_Intn (Z.of_nat (length passwordLetters)) g) as [idx g'].
    simpl in Hidx. destruct Hidx as [Hlo Hhi]; [done|].
    destruct (Z.leb_spec 0 idx) as [_|]; [|lia].
    destruct (passwordLetters !! Z.to_nat idx) as [letter|] eqn:Hletter.
    2:{ apply lookup_ge_None in Hletter.
        change (length passwordLetters) with 62 in Hletter. lia. }
    destruct (IH g' (outRunes ++ [letter])) as (letters & Hrun & Hlen & Hall).
    exists (letter :: letters). split_and!.
    + by rewrite Hrun, <- app_assoc.
    + simpl. by rewrite Hlen.
    + constructor; [|done]. by eapply list_elem_of_lookup_2.
Qed.

(** X9: with a random source that keeps the promise of [rand.Intn],
    [GenPassword] never indexes out of range, and returns a password of
    [length] characters (none for a [length] below one), each of them one
    of the 62 [passwordLetters]. *)
Theorem X9_GenPassword_letters :
  Intn_in_range →
  ∀ (length : Z) (g : Rng),
    ∃ password,
      (GenPassword length g).1 = Some password
      ∧ String.length password = Z.to_nat length
      ∧ (∀ c, c ∈ String.list_ascii_of_string password → c ∈ passwordLetters).
Proof.
  intros Hrange len g. unfold GenPassword.
  destruct (GenPassword_from_letters (Z.to_nat len) Hrange g [])
    as (letters & Hrun & Hlen & Hall).
  destruct (GenPassword_from (Z.to_nat len) g []) as [outRunes g'].
  simpl in Hrun. subst outRunes. simpl.
  exists (String.string_of_list_ascii letters). split_and!.
  - done.
  - by rewrite length_string_of_list_ascii.
  - intros c. rewrite String.list_ascii_of_string_of_list_ascii.
    rewrite Forall_forall in Hall. apply Hall.
Qed.

End GenPassword.

(** X9 with the linear congruential source: eight characters. *)
Lemma X9_GenPassword_letters_witness :
  ∃ password,
    (@GenPassword lcg 8 42%Z).1 = Some password
    ∧ String.length password = Z.to_nat 8
    ∧ (∀ c, c ∈ String.list_ascii_of_string password → c ∈ passwordLetters).
Proof.
  apply (@X9_GenPassword_letters lcg).
  intros n g Hn. simpl. apply Z.mod_pos_bound. lia.
Defined.

(** ** More on the runs *)

Section MoreRuns.
Context `{Env}.

Lemma observe_run {A} ev (f : World → A) s r s' :
  observe ev f s = (r, s') → r = inr (f (world s)) ∧ s' = extend s [ev].
Proof. by intros [= <- <-]. Qed.

Lemma perform_run {A} ev (f : World → A * World) s r s' :
  perform ev f s = (r, s') →
  r = inr (f (world s)).1 ∧ s' = mkState (f (world s)).2 (trace s ++ [ev]).
Proof. unfold perform. destruct (f (world s)) as [a w]. by intros [= <- <-]. Qed.

Lemma bind_perform {A B} ev (f : World → A * World) (k : A → M B) s :
  bind (perform ev f) k s
  = k (f (world s)).1 (mkState (f (world s)).2 (trace s ++ [ev])).
Proof. unfold bind, perform. by destruct (f (world s)). Qed.

Lemma bind_check_None {B} msg (k : unit → M B) s : bind (check None msg) k s = k tt s.
Proof. reflexivity. Qed.





End MoreRuns.

(** ** More on [WriteMidstream] *)

Section Merge2.
Context `{MergeHelpers}.

(** The merged patches depend on the receiver's patches only. *)
Lemma merge_Patches_ext k k' existing :
  PatchesStrategicMerge k = PatchesStrategicMerge k' →
  PatchesStrategicMerge (mergeKustomization k existing)
  = PatchesStrategicMerge (mergeKustomization k' existing).
Proof.
  intros Heq. destruct existing as [e|]; [|done].
  by rewrite !merge_Patches, Heq.
Qed.

End Merge2.

Section MoreMidstream.
Context `{Env} `{MergeHelpers}.

(** X10: when [DocForPatches] is empty, [WriteMidstream] (whatever it
    returns) creates, writes and closes no patch file; and when it returns
    nil, the [PatchesStrategicMerge] of the Kustomization it has written
    are those of the merge of the receiver's own list with the existing
    Kustomization that was loaded. *)
Theorem X10_WriteMidstream_no_patches :
  ∀ (m : Midstream) (options : MidOpts.WriteOptions) (s : State),
    DocForPatches m = [] →
    (∃ evs,
       trace (WriteMidstream m options s).2 = trace s ++ evs
       ∧ Forall (λ ev, mid_event_or_final m options ev
                       ∧ (∀ p, ev ≠ EvCreate p)
                       ∧ (∀ p b, ev ≠ EvFileWrite p b)
                       ∧ (∀ p, ev ≠ EvFileClose p)) evs)
    ∧ (∀ m' s',
         WriteMidstream m options s = (inr m', s') →
         ∃ existing s0,
           loadExisting options s = (inr existing, s0)
           ∧ PatchesStrategicMerge (MKustomization m')
             = PatchesStrategicMerge (mergeKustomization (MKustomization m) existing)).
Proof.
  intros m options s Hnil. split.
  - destruct (WriteMidstream_emits m options s) as (evs & Htr & HP).
    exists evs. split; [done|]. eapply Forall_impl; [exact HP|].
    intros ev Hev. split; [done|].
    destruct Hev as [Hev|[k ->]]; [|done].
    split_and!; intros; intros ->; simpl in Hev; by destruct Hev as [_ Hdocs].
  - intros m' s' Hrun.
    apply WriteMidstream_inr in Hrun as (existing & s0 & rel & evs & Hload & _ & Hk & _ & _).
    exists existing, s0. split; [done|].
    rewrite Hk. simpl. apply merge_Patches_ext.
    unfold composed. rewrite Hnil. by destruct (PullSecret m).
Qed.

Lemma writeDocs_inr f secret docs s u s' :
  writeDocs f secret docs s = (inr u, s') →
  ∃ bs,
    Forall2 (λ o b, yaml_Marshal (obejctWithPullSecret o secret) = inr b) docs bs
    ∧ trace s' = trace s ++ mjoin ((λ b, [EvFileWrite f separator; EvFileWrite f b]) <$> bs).
Proof.
  revert s. induction docs as [|o rest IH]; intros s; cbn [writeDocs].
  - intros [_ ->]%ret_inr. exists []. split; [constructor|]. simpl. by rewrite app_nil_r.
  - destruct (yaml_Marshal (obejctWithPullSecret o secret)) as [e|b] eqn:Hb; [done|].
    intros (err1 & s1 & Hw1 & (u1 & s1' & Hc1 & Hrun)%bind_inr)%bind_inr.
    apply check_inr in Hc1 as [-> ->].
    apply bind_inr in Hrun as (err2 & s2 & Hw2 & (u2 & s2' & Hc2 & Hrun)%bind_inr).
    apply check_inr in Hc2 as [-> ->].
    apply perform_run in Hw1 as [_ ->]. apply perform_run in Hw2 as [_ ->].
    apply IH in Hrun as (bs & Hbs & Htr).
    exists (b :: bs). split; [by constructor|].
    rewrite Htr. simpl. by rewrite <- !app_assoc.
Qed.

Lemma writeDocs_writes f secret docs :
  emits (λ ev, ∃ b, ev = EvFileWrite f b) (writeDocs f secret docs).
Proof.
  induction docs as [|o rest IH]; cbn [writeDocs].
  - apply emits_ret.
  - destruct (yaml_Marshal _) as [e|b]; [apply emits_fail|].
    repeat emits_step; eauto.
Qed.

Lemma writeObjectsWithPullSecret_calls m options s name s' :
  writeObjectsWithPullSecret m options s = (inr name, s') →
  match DocForPatches m with
  | [] => name = "" ∧ s' = s
  | docs =>
      name = patchesFilename
      ∧ ∃ bs,
          Forall2 (λ o b, yaml_Marshal (obejctWithPullSecret o (PullSecret m)) = inr b)
            docs bs
          ∧ trace s' = trace s ++ patch_calls (patchesPath options) bs
  end.
Proof.
  unfold writeObjectsWithPullSecret.
  destruct (DocForPatches m) as [|o rest] eqn:Hdocs.
  - simpl. by intros [-> ->]%ret_inr.
  - cbn [length Nat.eqb]. fold (patchesPath options).
    intros (err & s1 & Hcreate & (u & s1' & Hcheck & Hrun)%bind_inr)%bind_inr.
    apply check_inr in Hcheck as [-> ->]. apply perform_run in Hcreate as [_ ->].
    unfold deferring in Hrun.
    destruct (bind _ _ _) as [r s2] eqn:Hbody. injection Hrun as -> <-.
    apply bind_inr in Hbody as (u' & s3 & Hloop & [-> ->]%ret_inr).
    apply writeDocs_inr in Hloop as (bs & Hbs & Htr).
    split; [done|]. exists bs. split; [done|].
    unfold patch_calls, do_FileClose, perform. simpl. rewrite Htr. simpl.
    by rewrite <- !app_assoc.
Qed.

(** X11: when [writeObjectsWithPullSecret] returns no error and there
    are documents to patch, every document was marshalled, and the calls
    made are: create the patch file, then for each document in order a
    write of the separator and a write of the marshalled document, then
    close the file; the name returned is [pullsecrets.yaml].  With no
    document it returns the empty name and makes no call. *)
Theorem X11_patch_file_contents :
  ∀ (m : Midstream) (options : MidOpts.WriteOptions) (s s' : State) (name : string),
    writeObjectsWithPullSecret m options s = (inr name, s') →
    match DocForPatches m with
    | [] => name = "" ∧ s' = s
    | docs =>
        name = patchesFilename
        ∧ ∃ bs,
            Forall2 (λ o b, yaml_Marshal (obejctWithPullSecret o (PullSecret m)) = inr b)
              docs bs
            ∧ trace s' = trace s ++ patch_calls (patchesPath options) bs
    end.
Proof. intros m options s s' name. apply writeObjectsWithPullSecret_calls. Qed.

(** X12: with documents to patch, if [os.Create] fails,
    [writeObjectsWithPullSecret] returns that error wrapped and makes no
    other call; if it succeeds, the file is closed as the last call of
    the run, whatever the run returns, and in between the file is only
    written to. *)
Theorem X12_patch_file_is_closed :
  ∀ (m : Midstream) (options : MidOpts.WriteOptions) (s : State),
    DocForPatches m ≠ [] →
    let f := patchesPath options in
    let run := writeObjectsWithPullSecret m options s in
    match (os_Create f (world s)).1 with
    | Some e =>
        run = (inl (Wrap (Sys e) "failed to create resources file"),
               mkState (os_Create f (world s)).2 (trace s ++ [EvCreate f]))
    | None =>
        ∃ evs,
          trace run.2 = trace s ++ [EvCreate f] ++ evs ++ [EvFileClose f]
          ∧ Forall (λ ev, ∃ b, ev = EvFileWrite f b) evs
    end.
Proof.
  intros m options s Hdocs f run. subst run. unfold writeObjectsWithPullSecret.
  destruct (DocForPatches m) as [|o rest] eqn:Hm; [done|].
  cbn [length Nat.eqb]. fold (patchesPath options). fold f.
  unfold do_Create. rewrite bind_perform.
  destruct (os_Create f (world s)) as [[e|] w]; cbn [fst snd]; [done|].
  rewrite bind_check_None. unfold deferring.
  set (s1 := mkState w (trace s ++ [EvCreate f])).
  assert (emits (λ ev, ∃ b, ev = EvFileWrite f b)
            (bind (writeDocs f (PullSecret m) (o :: rest)) (λ _, ret patchesFilename)))
    as Hbody.
  { apply emits_bind; [apply writeDocs_writes|]. intros _. apply emits_ret. }
  destruct (Hbody s1) as (evs & Htr & HP).
  destruct (bind _ _ s1) as [r s2]. unfold do_FileClose, perform. simpl in *.
  exists evs. split; [|done]. rewrite Htr. by rewrite <- !app_assoc.
Qed.


(** X14: on a first render, that is when [os.Stat] on the Kustomization
    file fails, a run of [WriteMidstream] that returns nil has written the
    receiver's own Kustomization with [secret.yaml] appended to
    [Resources] if there is a pull secret, [pullsecrets.yaml] appended to
    [PatchesStrategicMerge] if there are documents to patch, and [Bases]
    set; no merge helper has a say. *)
Theorem X14_WriteMidstream_first_render :
  ∀ (m : Midstream) (options : MidOpts.WriteOptions) (s s' : State)
    (m' : Midstream) (e : syserr),
    os_Stat (KustomizationFilename options) (world s) = Some e →
    WriteMidstream m options s = (inr m', s') →
    ∃ rel,
      filepath_Rel (MidOpts.MidstreamDir options) (MidOpts.BaseDir options) = inr rel
      ∧ MKustomization m' = set_Bases (composed m) [rel]
      ∧ last (trace s')
        = Some (EvWriteKustomization (set_Bases (composed m) [rel])
                  (KustomizationFilename options)).
Proof.
  intros m options s s' m' e Hstat Hrun.
  apply WriteMidstream_inr in Hrun
    as (existing & s0 & rel & evs & Hload & Hrel & Hk & Htr & _).
  unfold loadExisting, bind, do_Stat, observe in Hload. rewrite Hstat in Hload.
  simpl in Hload. injection Hload as <- _. rewrite merge_nil in Hk.
  exists rel. split_and!; [done..|].
  by rewrite Htr, app_assoc, last_snoc, Hk.
Qed.

(** X15: whatever Kustomization exists in the midstream directory, the
    [APIVersion] and [Kind] of the one [WriteMidstream] writes are the
    receiver's; those of the existing file are not taken over. *)
Theorem X15_WriteMidstream_keeps_type_meta :
  ∀ (m : Midstream) (options : MidOpts.WriteOptions) (s s' : State) (m' : Midstream),
    WriteMidstream m options s = (inr m', s') →
    APIVersion (MKustomization m') = APIVersion (MKustomization m)
    ∧ Kind (MKustomization m') = Kind (MKustomization m).
Proof.
  intros m options s s' m' Hrun.
  apply WriteMidstream_inr in Hrun as (existing & s0 & rel & evs & _ & _ & Hk & _ & _).
  rewrite Hk. unfold composed.
  destruct existing as [ex|], (PullSecret m), (DocForPatches m); done.
Qed.

End MoreMidstream.

(** ** More on [WriteBase] *)

Section MoreBase.
Context `{Env}.

Lemma bind_observe {A B} ev (f : World → A) (k : A → M B) s :
  bind (observe ev f) k s = k (f (world s)) (extend s [ev]).
Proof. reflexivity. Qed.

Lemma bind_check_Some {B} e msg (k : unit → M B) s :
  bind (check (Some e) msg) k s = (inl (Wrap (Sys e) msg), s).
Proof. reflexivity. Qed.


Lemma writes_of_app evs1 evs2 : writes_of (evs1 ++ evs2) = writes_of evs1 ++ writes_of evs2.
Proof. unfold writes_of. apply omap_app. Qed.

(** X16: when [os.Stat] on [BaseDir] succeeds and [Overwrite] is set,
    the next call of [WriteBase] is [os.RemoveAll] on [BaseDir].  If it
    fails, [WriteBase] returns that error wrapped and calls nothing else;
    if it succeeds, [WriteBase] goes on with the loop and the final
    write, in which [os.RemoveAll] is not called again. *)
Theorem X16_WriteBase_overwrite :
  ∀ (b : Base) (options : BaseOpts.WriteOptions) (s : State),
    os_Stat (BaseOpts.BaseDir options) (world s) = None →
    BaseOpts.Overwrite options = true →
    let dir := BaseOpts.BaseDir options in
    let removed := mkState (os_RemoveAll dir (world s)).2
                     (trace s ++ [EvStat dir; EvRemoveAll dir]) in
    match (os_RemoveAll dir (world s)).1 with
    | Some e =>
        WriteBase b options s
        = (inl (Wrap (Sys e) "failed to remove previous content in base"), removed)
    | None =>
        WriteBase b options s = writeAll b options removed
        ∧ ∃ evs,
            trace (WriteBase b options s).2 = trace removed ++ evs
            ∧ Forall (λ ev, ∀ p, ev ≠ EvRemoveAll p) evs
    end.
Proof.
  intros b options s Hstat Hover dir removed.
  assert (WriteBase b options s
          = match (os_RemoveAll dir (world s)).1 with
            | Some e =>
                (inl (Wrap (Sys e) "failed to remove previous content in base"), removed)
            | None => writeAll b options removed
            end) as Hrun.
  { subst removed dir. unfold WriteBase, do_Stat. rewrite bind_observe, Hstat, Hover.
    unfold bind at 1. unfold do_RemoveAll. rewrite bind_perform.
    simpl. rewrite <- app_assoc. simpl.
    by destruct (os_RemoveAll (BaseOpts.BaseDir options) (world s)) as [[e|] w]. }
  destruct (os_RemoveAll dir (world s)).1 as [e|]; [done|].
  split; [done|]. rewrite Hrun.
  destruct (writeAll_emits b options removed) as (evs & Htr & HP). eauto.
Qed.

Lemma bind_assoc {A B C} (c : M A) (f : A → M B) (g : B → M C) s :
  bind (bind c f) g s = bind c (λ a, bind (f a) g) s.
Proof. unfold bind. by destruct (c s) as [[e|a] s1]. Qed.

Lemma bind_ret {A B} (a : A) (k : A → M B) s : bind (ret a) k s = k a s.
Proof. reflexivity. Qed.

Lemma bind_case {A B} (c : M A) (f : A → M B) s :
  (∃ e s1, c s = (inl e, s1) ∧ bind c f s = (inl e, s1))
  ∨ (∃ a s1, c s = (inr a, s1) ∧ bind c f s = f a s1).
Proof. unfold bind. destruct (c s) as [[e|a] s1]; [left|right]; eauto. Qed.

Lemma base_writes_cons options file rest :
  base_writes options (file :: rest)
  = if ShouldBeIncludedInBaseFilesystem file (BaseOpts.ExcludeKotsKinds options)
    then (path_Join [BaseOpts.BaseDir options; Path file], Content file, mode_0644)
         :: base_writes options rest
    else base_writes options rest.
Proof.
  unfold base_writes.
  destruct (ShouldBeIncludedInBaseFilesystem file _) eqn:Hfs.
  - by rewrite filter_cons_True by (rewrite Hfs; exact I).
  - by rewrite filter_cons_False by (rewrite Hfs; exact id).
Qed.

(** The [ioutil.WriteFile] calls of the loop: the files still to write,
    as far as the loop gets, and all of them when it returns no error. *)
Lemma writeFiles_writes (options : BaseOpts.WriteOptions) files :
  ∀ acc s,
    ∃ evs,
      trace (writeFiles (BaseOpts.BaseDir options) (BaseOpts.ExcludeKotsKinds options)
               files acc s).2 = trace s ++ evs
      ∧ writes_of evs `prefix_of` base_writes options files
      ∧ (∀ res,
           (writeFiles (BaseOpts.BaseDir options) (BaseOpts.ExcludeKotsKinds options)
              files acc s).1 = inr res →
           writes_of evs = base_writes options files).
Proof.
  induction files as [|file rest IH]; intros acc s.
  - exists []. simpl. by rewrite app_nil_r.
  - cbn [writeFiles]. rewrite base_writes_cons.
    destruct (ShouldBeIncludedInBaseFilesystem file (BaseOpts.ExcludeKotsKinds options));
      cbn [negb andb].
    + set (acc' := if ShouldBeIncludedInBaseKustomization file _ then _ else _).
      set (path := path_Join [BaseOpts.BaseDir options; Path file]).
      set (d := (path_Split path).1).
      set (w1 := (path, Content file, mode_0644)).
      set (wr := EvWriteFile path (Content file) mode_0644).
      set (rest_run := writeFiles _ _ rest acc').
      set (write := bind (bind (do_WriteFile path (Content file) mode_0644)
                            (λ err, check err "failed to write base file"))
                      (λ _, rest_run)).
      assert (∀ s1 pre,
                writes_of pre = [] → trace s1 = trace s ++ pre →
                ∃ evs,
                  trace (write s1).2 = trace s ++ evs
                  ∧ writes_of evs `prefix_of` w1 :: base_writes options rest
                  ∧ (∀ res, (write s1).1 = inr res →
                            writes_of evs = w1 :: base_writes options rest)) as Hwrite.
      { intros s1 pre Hpre Htr1. subst write. rewrite bind_assoc.
        unfold do_WriteFile. rewrite bind_perform. fold wr.
        destruct (ioutil_WriteFile path (Content file) mode_0644 (world s1)) as [[e|] w];
          cbn [fst snd].
        - rewrite bind_check_Some. exists (pre ++ [wr]). cbn [fst snd trace]. split_and!.
          + by rewrite Htr1, <- app_assoc.
          + rewrite writes_of_app, Hpre. simpl. by apply prefix_cons, prefix_nil.
          + done.
        - rewrite bind_check_None. subst rest_run.
          destruct (IH acc' (mkState w (trace s1 ++ [wr]))) as (evs & Htr & Hpre' & Hall).
          exists (pre ++ [wr] ++ evs). split_and!.
          + rewrite Htr. simpl. by rewrite Htr1, <- !app_assoc.
          + rewrite !writes_of_app, Hpre. simpl. by apply prefix_cons.
          + intros res Hres. rewrite !writes_of_app, Hpre. simpl. f_equal. by eapply Hall. }
      rewrite bind_assoc. unfold do_Stat. rewrite bind_observe. cbn beta.
      rewrite bind_assoc.
      destruct (os_IsNotExist (os_Stat d (world s))).
      * rewrite bind_assoc. unfold do_MkdirAll. rewrite bind_perform.
        destruct (os_MkdirAll d mode_0744 (world (extend s [EvStat d]))) as [[e|] w];
          cbn [fst snd].
        -- rewrite bind_check_Some.
           exists [EvStat d; EvMkdirAll d mode_0744]. cbn [fst snd trace]. split_and!.
           ++ simpl. by rewrite <- app_assoc.
           ++ apply prefix_nil.
           ++ done.
        -- rewrite bind_check_None.
           apply (Hwrite _ [EvStat d; EvMkdirAll d mode_0744]); [done|].
           simpl. by rewrite <- app_assoc.
      * rewrite bind_ret. apply (Hwrite _ [EvStat d]); done.
    + destruct (ShouldBeIncludedInBaseKustomization file _); cbn [negb andb].
      * rewrite bind_ret. apply IH.
      * apply IH.
Qed.

(** X17: the [ioutil.WriteFile] calls of a run of [WriteBase] are, in
    order, for the files that the file-system predicate accepts, at
    [path.Join(BaseDir, file.Path)] with the file's content and mode
    [0644]: as far as the run gets when it fails, and for every such file
    when it returns nil.  A file only the resource list accepts, or that
    neither accepts, is not written. *)
Theorem X17_WriteBase_files_written :
  ∀ (b : Base) (options : BaseOpts.WriteOptions) (s : State),
    ∃ evs,
      trace (WriteBase b options s).2 = trace s ++ evs
      ∧ writes_of evs `prefix_of` base_writes options (Files b)
      ∧ ((WriteBase b options s).1 = inr tt →
         writes_of evs = base_writes options (Files b)).
Proof.
  intros b options s. unfold WriteBase.
  set (dir := BaseOpts.BaseDir options).
  unfold do_Stat. rewrite bind_observe.
  set (guard := match os_Stat dir (world s) with
                | None => _
                | Some _ => _
                end).
  assert (emits (λ ev, writes_of [ev] = []) guard) as Hguard.
  { subst guard. destruct (os_Stat dir (world s)); [apply emits_ret|].
    destruct (BaseOpts.Overwrite options); repeat emits_step. done. }
  assert (∀ evs, Forall (λ ev, writes_of [ev] = []) evs → writes_of evs = []) as Hnone.
  { intros evs HP. induction HP as [|ev evs Hev _ IH]; [done|].
    change (ev :: evs) with ([ev] ++ evs). by rewrite writes_of_app, Hev, IH. }
  destruct (bind_case guard
              (λ _, bind (writeFiles dir (BaseOpts.ExcludeKotsKinds options) (Files b) [])
                      (λ kustomizeResources,
                         bind (do_WriteKustomization (base_kustomization kustomizeResources)
                                 (path_Join [dir; "kustomization.yaml"]))
                           (λ err, check err "failed to write kustomization to file")))
              (extend s [EvStat dir]))
    as [(e & s1 & Hg & ->)|(u & s1 & Hg & ->)];
    apply (emits_run _ _ _ _ _ Hguard) in Hg as (evs0 & Htr0 & HP0);
    apply Hnone in HP0; simpl in Htr0.
  - exists ([EvStat dir] ++ evs0). cbn [fst snd]. split_and!.
    + by rewrite Htr0, <- app_assoc.
    + rewrite writes_of_app, HP0. apply prefix_nil.
    + done.
  - destruct (writeFiles_writes options (Files b) [] s1) as (evs1 & Htr1 & Hpre & Hall).
    fold dir in Htr1, Hall.
    destruct (bind_case (writeFiles dir (BaseOpts.ExcludeKotsKinds options) (Files b) [])
                (λ kustomizeResources,
                   bind (do_WriteKustomization (base_kustomization kustomizeResources)
                           (path_Join [dir; "kustomization.yaml"]))
                     (λ err, check err "failed to write kustomization to file"))
                s1)
      as [(e & s2 & Hwf & ->)|(res & s2 & Hwf & ->)];
      rewrite Hwf in Htr1, Hall; cbn [fst snd] in Htr1, Hall.
    + exists ([EvStat dir] ++ evs0 ++ evs1). cbn [fst snd]. split_and!.
      * by rewrite Htr1, Htr0, <- !app_assoc.
      * by rewrite !writes_of_app, HP0.
      * done.
    + unfold do_WriteKustomization. rewrite bind_perform.
      set (final := EvWriteKustomization _ _).
      exists ([EvStat dir] ++ evs0 ++ evs1 ++ [final]).
      assert (writes_of ([EvStat dir] ++ evs0 ++ evs1 ++ [final]) = writes_of evs1) as Hw.
      { rewrite !writes_of_app, HP0. simpl. by rewrite app_nil_r. }
      rewrite Hw. split_and!.
      * destruct (WriteKustomizationToFile _ _ _) as [[e|] w]; simpl;
          by rewrite Htr1, Htr0, <- !app_assoc.
      * done.
      * intros _. by apply (Hall res).
Qed.


End MoreBase.

(** ** Further runs on the simulated file system *)

(** X10: no document to patch, an earlier render present. *)
Lemma X10_WriteMidstream_no_patches_witness :
  let s := Sim.start Sim.w_rendered in
  let run := @WriteMidstream Sim.env spec_helpers Sim.m_plain Sim.options in
  (∃ evs,
     trace (run s).2 = trace s ++ evs
     ∧ Forall (λ ev, @mid_event_or_final Sim.env Sim.m_plain Sim.options ev
                     ∧ (∀ p, ev ≠ EvCreate p)
                     ∧ (∀ p b, ev ≠ EvFileWrite p b)
                     ∧ (∀ p, ev ≠ EvFileClose p)) evs)
  ∧ (∀ m' s',
       run s = (inr m', s') →
       ∃ existing s0,
         @loadExisting Sim.env Sim.options s = (inr existing, s0)
         ∧ PatchesStrategicMerge (MKustomization m')
           = PatchesStrategicMerge
               (@mergeKustomization spec_helpers (MKustomization Sim.m_plain) existing)).
Proof.
  intros s run.
  apply (@X10_WriteMidstream_no_patches Sim.env spec_helpers Sim.m_plain Sim.options s).
  reflexivity.
Defined.

(** X11: one document to patch. *)
Lemma X11_patch_file_contents_witness :
  let s := Sim.start Sim.w_rendered in
  let run := @writeObjectsWithPullSecret Sim.env Sim.m_secret Sim.options s in
  "pullsecrets.yaml" = @patchesFilename
  ∧ ∃ bs,
      Forall2 (λ o b, @yaml_Marshal Sim.env
                        (@obejctWithPullSecret Sim.env o (PullSecret Sim.m_secret)) = inr b)
        [Sim.deployment] bs
      ∧ trace run.2 = trace s ++ @patch_calls (@patchesPath Sim.env Sim.options) bs.
Proof.
  intros s run.
  apply (@X11_patch_file_contents Sim.env Sim.m_secret Sim.options s run.2
           "pullsecrets.yaml").
  vm_compute. reflexivity.
Defined.

(** X12: one document to patch, the patch file can be created. *)
Lemma X12_patch_file_is_closed_witness :
  let s := Sim.start Sim.w_rendered in
  let run := @writeObjectsWithPullSecret Sim.env Sim.m_secret Sim.options s in
  ∃ evs,
    trace run.2
    = trace s ++ [EvCreate "midstream/pullsecrets.yaml"] ++ evs
      ++ [EvFileClose "midstream/pullsecrets.yaml"]
    ∧ Forall (λ ev, ∃ b, ev = EvFileWrite "midstream/pullsecrets.yaml" b) evs.
Proof.
  intros s run.
  apply (@X12_patch_file_is_closed Sim.env Sim.m_secret Sim.options s).
  discriminate.
Defined.

(** X14: no Kustomization in the midstream directory yet. *)
Lemma X14_WriteMidstream_first_render_witness :
  let s := Sim.start Sim.w_base in
  let run := @WriteMidstream Sim.env spec_helpers Sim.m_secret Sim.options s in
  let m' := left_by Sim.m_secret run in
  ∃ rel,
    Sim.rel "midstream" "base" = inr rel
    ∧ MKustomization m' = set_Bases (@composed Sim.env Sim.m_secret) [rel]
    ∧ last (trace run.2)
      = Some (EvWriteKustomization (set_Bases (@composed Sim.env Sim.m_secret) [rel])
                "midstream/kustomization.yaml").
Proof.
  intros s run m'.
  apply (@X14_WriteMidstream_first_render Sim.env spec_helpers
           Sim.m_secret Sim.options s run.2 m' ENOENT).
  - vm_compute. reflexivity.
  - vm_compute. reflexivity.
Defined.

(** X15: an earlier render present. *)
Lemma X15_WriteMidstream_keeps_type_meta_witness :
  let s := Sim.start Sim.w_rendered in
  let run := @WriteMidstream Sim.env spec_helpers Sim.m_secret Sim.options s in
  let m' := left_by Sim.m_secret run in
  APIVersion (MKustomization m') = APIVersion (MKustomization Sim.m_secret)
  ∧ Kind (MKustomization m') = Kind (MKustomization Sim.m_secret).
Proof.
  intros s run m'.
  apply (@X15_WriteMidstream_keeps_type_meta Sim.env spec_helpers
           Sim.m_secret Sim.options s run.2 m').
  vm_compute. reflexivity.
Defined.

(** X16: [base] exists, [Overwrite] is set, the removal succeeds. *)
Lemma X16_WriteBase_overwrite_witness :
  let b := mkBase [mkBaseFile "a.yaml" []] in
  let options := BaseOpts.mk "base" true false in
  let s := Sim.start Sim.w_base in
  let removed := @mkState Sim.env (Sim.removeAll "base" Sim.w_base).2
                   [EvStat "base"; EvRemoveAll "base"] in
  @WriteBase Sim.env b options s = @writeAll Sim.env b options removed
  ∧ ∃ evs,
      trace (@WriteBase Sim.env b options s).2 = trace removed ++ evs
      ∧ Forall (λ ev, ∀ p, ev ≠ EvRemoveAll p) evs.
Proof.
  intros b options s removed.
  apply (@X16_WriteBase_overwrite Sim.env b options s).
  - vm_compute. reflexivity.
  - reflexivity.
Defined.

(** ** The calls of a render *)

Section RenderCalls.
Context `{Env} `{MergeHelpers}.




End RenderCalls.

